(** * FeatureFinder: detection profiles and pixel geometry

    A shallow embedding of [featureFinder/detection_settings.py] and of the
    geometry and cropping helpers of [featureFinder/processing_support.py],
    with the properties their specification states about them and further
    properties read off the code.

    Conventions.
    - Python [int] values are [Z]; [%] with a positive modulus is [Z.modulo].
    - A [float | int] attribute is a [number]; float literals are binary64
      values ([PrimFloat]).
    - An instance starts from the class attributes of [DefaultDetection] and
      every [self.x = v] is a functional update of the record.
    - A call that can raise returns a [result]: [inl] an exception, [inr] a
      value.
    - Python floats are binary64: [PrimFloat] values, and [SpecFloat]
      operations where a property is proved about them. *)

From Stdlib Require Import ZArith List String Bool Lia.
From Stdlib Require Import PrimFloat SpecFloat FloatOps.
From Stdlib Require Import Reals.
Import ListNotations.

#[local] Open Scope Z_scope.
#[local] Set Warnings "-inexact-float".

(* ================================================================== *)
(** * Python values *)
(* ================================================================== *)

Module Python.

(** The exceptions of this development. [ValueError] and [OverflowError] are
    the Python exceptions the modelled code can raise. [InvalidInput] is the
    error kind the specification names; no statement of the source raises
    it. *)
Inductive exception : Type :=
| ValueError
| OverflowError
| InvalidInput.

(** The outcome of a call: an exception raised or a value returned. *)
Definition result (A : Type) : Type := (exception + A)%type.

Definition raise {A : Type} (e : exception) : result A := inl e.
Definition ret {A : Type} (a : A) : result A := inr a.

Definition bind {A B : Type} (m : result A) (k : A -> result B) : result B :=
  match m with
  | inl e => inl e
  | inr a => k a
  end.

Notation "x <- m ;; k" := (bind m (fun x => k))
  (at level 61, m at next level, right associativity).

(** [int(f)] for a float [f]: truncation toward zero; [ValueError] on a NaN
    and [OverflowError] on an infinity. *)
Definition int_of_float (f : spec_float) : result Z :=
  match f with
  | S754_zero _ => ret 0
  | S754_finite s m e => ret (cond_Zopp s (Z.shiftl (Z.pos m) e))
  | S754_infinity _ => raise OverflowError
  | S754_nan => raise ValueError
  end.

End Python.

(* ================================================================== *)
(** * detection_settings.py *)
(* ================================================================== *)

Module DetectionSettings.
Import Python.

(** A Python [float | int] attribute value. *)
Inductive number : Type :=
| Int (z : Z)
| Float (f : float).

(** [orientation_left] / [orientation_right]: the three-element list
    [[X Flip, Y Flip, Rotation [deg]]]. *)
Definition orientation : Type := (bool * bool * number)%type.

(** The attributes of a detection profile, in the order of the class body. *)
Record Profile : Type := mkProfile {
  circle_size : Z * Z;
  circularity_min : number;
  default_pivot_point : option (Z * Z);
  deviation_cutoff : Z;
  gauss : Z;
  hough_min_length : Z;
  rect_size : Z * Z;
  threshold : Z;
  ang2pxl : Z;
  default_clock_angle : number;
  fid_triangle_area : number;
  orientation_left : orientation;
  orientation_right : orientation
}.

(** Attribute assignment [self.x = v], one setter per attribute. *)
Definition set_circle_size (v : Z * Z) (self : Profile) : Profile :=
  mkProfile v (circularity_min self) (default_pivot_point self)
    (deviation_cutoff self) (gauss self) (hough_min_length self)
    (rect_size self) (threshold self) (ang2pxl self)
    (default_clock_angle self) (fid_triangle_area self)
    (orientation_left self) (orientation_right self).

Definition set_circularity_min (v : number) (self : Profile) : Profile :=
  mkProfile (circle_size self) v (default_pivot_point self)
    (deviation_cutoff self) (gauss self) (hough_min_length self)
    (rect_size self) (threshold self) (ang2pxl self)
    (default_clock_angle self) (fid_triangle_area self)
    (orientation_left self) (orientation_right self).

Definition set_default_pivot_point (v : option (Z * Z)) (self : Profile)
  : Profile :=
  mkProfile (circle_size self) (circularity_min self) v
    (deviation_cutoff self) (gauss self) (hough_min_length self)
    (rect_size self) (threshold self) (ang2pxl self)
    (default_clock_angle self) (fid_triangle_area self)
    (orientation_left self) (orientation_right self).

Definition set_deviation_cutoff (v : Z) (self : Profile) : Profile :=
  mkProfile (circle_size self) (circularity_min self)
    (default_pivot_point self) v (gauss self) (hough_min_length self)
    (rect_size self) (threshold self) (ang2pxl self)
    (default_clock_angle self) (fid_triangle_area self)
    (orientation_left self) (orientation_right self).

Definition set_gauss (v : Z) (self : Profile) : Profile :=
  mkProfile (circle_size self) (circularity_min self)
    (default_pivot_point self) (deviation_cutoff self) v
    (hough_min_length self) (rect_size self) (threshold self) (ang2pxl self)
    (default_clock_angle self) (fid_triangle_area self)
    (orientation_left self) (orientation_right self).

Definition set_hough_min_length (v : Z) (self : Profile) : Profile :=
  mkProfile (circle_size self) (circularity_min self)
    (default_pivot_point self) (deviation_cutoff self) (gauss self) v
    (rect_size self) (threshold self) (ang2pxl self)
    (default_clock_angle self) (fid_triangle_area self)
    (orientation_left self) (orientation_right self).

Definition set_rect_size (v : Z * Z) (self : Profile) : Profile :=
  mkProfile (circle_size self) (circularity_min self)
    (default_pivot_point self) (deviation_cutoff self) (gauss self)
    (hough_min_length self) v (threshold self) (ang2pxl self)
    (default_clock_angle self) (fid_triangle_area self)
    (orientation_left self) (orientation_right self).

Definition set_threshold (v : Z) (self : Profile) : Profile :=
  mkProfile (circle_size self) (circularity_min self)
    (default_pivot_point self) (deviation_cutoff self) (gauss self)
    (hough_min_length self) (rect_size self) v (ang2pxl self)
    (default_clock_angle self) (fid_triangle_area self)
    (orientation_left self) (orientation_right self).

Definition set_ang2pxl (v : Z) (self : Profile) : Profile :=
  mkProfile (circle_size self) (circularity_min self)
    (default_pivot_point self) (deviation_cutoff self) (gauss self)
    (hough_min_length self) (rect_size self) (threshold self) v
    (default_clock_angle self) (fid_triangle_area self)
    (orientation_left self) (orientation_right self).

Definition set_default_clock_angle (v : number) (self : Profile) : Profile :=
  mkProfile (circle_size self) (circularity_min self)
    (default_pivot_point self) (deviation_cutoff self) (gauss self)
    (hough_min_length self) (rect_size self) (threshold self) (ang2pxl self)
    v (fid_triangle_area self)
    (orientation_left self) (orientation_right self).

Definition set_fid_triangle_area (v : number) (self : Profile) : Profile :=
  mkProfile (circle_size self) (circularity_min self)
    (default_pivot_point self) (deviation_cutoff self) (gauss self)
    (hough_min_length self) (rect_size self) (threshold self) (ang2pxl self)
    (default_clock_angle self) v
    (orientation_left self) (orientation_right self).

Definition set_orientation_left (v : orientation) (self : Profile) : Profile :=
  mkProfile (circle_size self) (circularity_min self)
    (default_pivot_point self) (deviation_cutoff self) (gauss self)
    (hough_min_length self) (rect_size self) (threshold self) (ang2pxl self)
    (default_clock_angle self) (fid_triangle_area self)
    v (orientation_right self).

Definition set_orientation_right (v : orientation) (self : Profile)
  : Profile :=
  mkProfile (circle_size self) (circularity_min self)
    (default_pivot_point self) (deviation_cutoff self) (gauss self)
    (hough_min_length self) (rect_size self) (threshold self) (ang2pxl self)
    (default_clock_angle self) (fid_triangle_area self)
    (orientation_left self) v.

(** The class attributes of [DefaultDetection]: what an instance reads before
    any attribute is assigned on it. *)
Definition class_attributes : Profile := {|
  circle_size := (1000, 6000);
  circularity_min := Float 0.8;
  default_pivot_point := Some (1800, 1050);
  deviation_cutoff := 100;
  gauss := 11;
  hough_min_length := 30;
  rect_size := (10000, 30000);
  threshold := 30;
  ang2pxl := 65;
  default_clock_angle := Float 0.0;
  fid_triangle_area := Int 0;
  orientation_left := (false, false, Float 0.0);
  orientation_right := (false, false, Float 0.0)
|}.

(** The operations of [_even_to_odd] on a [float | int] value: [val < 0],
    [int(val)] and [val + 1]. On a float they are the binary64 comparison,
    truncation and addition. *)
Definition lt_zero (val : number) : bool :=
  match val with
  | Int z => z <? 0
  | Float f => PrimFloat.ltb f 0
  end.

Definition to_int (val : number) : result Z :=
  match val with
  | Int z => ret z
  | Float f => int_of_float (Prim2SF f)
  end.

Definition add_one (val : number) : number :=
  match val with
  | Int z => Int (z + 1)
  | Float f => Float (f + 1)
  end.

(** [DefaultDetection._even_to_odd(val)], for [val: float | int]:
    [[
      if val < 0: val = 1
      elif int(val) % 2 == 0: val += 1
      return int(val)
    ]] *)
Definition _even_to_odd (val : number) : result Z :=
  if lt_zero val then to_int (Int 1)
  else
    i <- to_int val ;;
    if i mod 2 =? 0 then to_int (add_one val) else to_int val.

(** The value of [_even_to_odd] on a Python [int]. *)
Definition even_to_odd_int (val : Z) : Z :=
  if val <? 0 then 1
  else if val mod 2 =? 0 then val + 1
  else val.

(** [DefaultDetection._limit_fiducial_size]:
    [[
      new_min, new_max = self.circle_size
      if self.circle_size[1] > self.rect_size[0]:
          new_max = self.rect_size[0]
          if self.circle_size[0] > new_max:
              new_min = 0
          self.circle_size = (new_min, new_max)
    ]] *)
Definition _limit_fiducial_size (self : Profile) : Profile :=
  let '(new_min, new_max) := circle_size self in
  if snd (circle_size self) >? fst (rect_size self) then
    let new_max := fst (rect_size self) in
    let new_min := if fst (circle_size self) >? new_max then 0 else new_min in
    set_circle_size (new_min, new_max) self
  else self.

(** [DefaultDetection.__init__]: the keyword arguments are not read. The
    attribute [gauss] is an [int], on which [_even_to_odd] returns
    [even_to_odd_int]. *)
Definition DefaultDetection_init (self : Profile) : Profile :=
  let self := set_gauss (even_to_odd_int (gauss self)) self in
  _limit_fiducial_size self.

(** The profile classes of the module. *)
Inductive detection_class : Type :=
| DefaultDetection
| GalileoDetection
| MidasDetection
| ML2Detection
| HydraDetection
| TriOpticsDetection.

#[local] Open Scope string_scope.

(** [set_test_system_specifics], by the class that defines it; the classes
    that do not override it inherit the base method, whose body is [pass]. *)
Definition set_test_system_specifics (cls : detection_class)
    (test_system : string) (self : Profile) : Profile :=
  match cls with
  | GalileoDetection =>
      if String.eqb test_system "JOHNNY5" then
        set_hough_min_length 40 self
      else if String.eqb test_system "BAT" then
        let self := set_default_pivot_point None self in
        set_orientation_right (true, false, Float 0.0) self
      else self
  | MidasDetection =>
      if String.eqb test_system "PIN" then
        let self := set_ang2pxl 80 self in
        let self := set_circle_size (1000, 10000) self in
        let self := set_circularity_min (Float 0.3) self in
        let self := set_default_clock_angle (Int 0) self in
        let self := set_fid_triangle_area (Float 12.4) self in
        let self := set_gauss 201 self in
        let self := set_orientation_left (true, false, Float 0.0) self in
        set_orientation_right (true, true, Float 0.0) self
      else self
  | ML2Detection =>
      if String.eqb test_system "TET" then
        let self := set_ang2pxl 65 self in
        let self := set_fid_triangle_area (Float 59.3) self in
        let self := set_orientation_left (false, false, Int 90) self in
        set_orientation_right (false, false, Int 90) self
      else self
  | DefaultDetection | HydraDetection | TriOpticsDetection => self
  end.

(** The tags a class's [set_test_system_specifics] tests for. *)
Definition whitelist (cls : detection_class) : list string :=
  match cls with
  | GalileoDetection => ["JOHNNY5"; "BAT"]
  | MidasDetection => ["PIN"]
  | ML2Detection => ["TET"]
  | DefaultDetection | HydraDetection | TriOpticsDetection => []
  end.

(** [DefaultDetection._check_kwargs]: [kwargs] is the value bound to the key
    ["test_system"], if the key is present. *)
Definition _check_kwargs (cls : detection_class) (kwargs : option string)
    (self : Profile) : Profile :=
  match kwargs with
  | Some test_system => set_test_system_specifics cls test_system self
  | None => self
  end.

(** The attribute assignments of each subclass's [__init__], between
    the call of the base initializer and the call of [_check_kwargs]. *)
Definition Galileo_assignments (self : Profile) : Profile :=
  let self := set_ang2pxl 65 self in
  let self := set_circle_size (1000, 5000) self in
  let self := set_circularity_min (Float 0.7) self in
  let self := set_default_clock_angle (Int (-5)) self in
  let self := set_default_pivot_point (Some (1900, 1100)) self in
  let self := set_deviation_cutoff 150 self in
  let self := set_fid_triangle_area (Float 9.8) self in
  let self := set_gauss 1 self in
  let self := set_hough_min_length 50 self in
  let self := set_orientation_left (false, false, Float 0.0) self in
  let self := set_orientation_right (false, false, Float 0.0) self in
  let self := set_rect_size (10000, 50000) self in
  set_threshold 10 self.

Definition Midas_assignments (self : Profile) : Profile :=
  let self := set_ang2pxl 65 self in
  let self := set_circle_size (1000, 6000) self in
  let self := set_circularity_min (Float 0.8) self in
  let self := set_default_clock_angle (Int (-5)) self in
  let self := set_default_pivot_point None self in
  let self := set_deviation_cutoff 200 self in
  let self := set_fid_triangle_area (Float 11.8) self in
  let self := set_gauss 89 self in
  let self := set_hough_min_length 0 self in
  let self := set_orientation_left (true, false, Float (-90.0)) self in
  let self := set_orientation_right (false, false, Float 90.0) self in
  let self := set_rect_size (15000, 35000) self in
  set_threshold 100 self.

Definition ML2_assignments (self : Profile) : Profile :=
  let self := set_ang2pxl 80 self in
  let self := set_circle_size (1000, 10000) self in
  let self := set_circularity_min (Float 0.2) self in
  let self := set_default_clock_angle (Int (-5)) self in
  let self := set_default_pivot_point None self in
  let self := set_deviation_cutoff 150 self in
  let self := set_fid_triangle_area (Float 58.3) self in
  let self := set_gauss 1 self in
  let self := set_orientation_left (false, true, Int 90) self in
  let self := set_orientation_right (true, true, Int 90) self in
  let self := set_rect_size (10000, 50000) self in
  set_threshold 30 self.

Definition Hydra_assignments (self : Profile) : Profile :=
  let self := set_ang2pxl 78 self in
  let self := set_circle_size (0, 0) self in
  let self := set_circularity_min (Int 0) self in
  let self := set_default_clock_angle (Int 0) self in
  let self := set_default_pivot_point None self in
  let self := set_deviation_cutoff 200 self in
  let self := set_fid_triangle_area (Int 0) self in
  let self := set_gauss 21 self in
  let self := set_hough_min_length 15 self in
  let self := set_orientation_left (false, false, Float 0.0) self in
  let self := set_orientation_right (false, false, Float 0.0) self in
  let self := set_rect_size (10000, 30000) self in
  set_threshold 30 self.

Definition TriOptics_assignments (self : Profile) : Profile :=
  let self := set_default_pivot_point None self in
  let self := set_deviation_cutoff 250 self in
  let self := set_gauss 1 self in
  let self := set_hough_min_length 500 self in
  let self := set_orientation_left (false, false, Float 0.0) self in
  let self := set_orientation_right (false, false, Float 0.0) self in
  set_threshold 10 self.

(** Instantiating [cls] with keyword arguments [kwargs]: the instance the
    class's [__init__] leaves behind. *)
Definition construct (cls : detection_class) (kwargs : option string)
  : Profile :=
  let self := DefaultDetection_init class_attributes in
  match cls with
  | DefaultDetection => self
  | GalileoDetection =>
      _check_kwargs GalileoDetection kwargs (Galileo_assignments self)
  | MidasDetection =>
      _check_kwargs MidasDetection kwargs (Midas_assignments self)
  | ML2Detection =>
      _check_kwargs ML2Detection kwargs (ML2_assignments self)
  | HydraDetection =>
      _check_kwargs HydraDetection kwargs (Hydra_assignments self)
  | TriOpticsDetection =>
      _check_kwargs TriOpticsDetection kwargs (TriOptics_assignments self)
  end.

(** The normalization invariants of a profile: an odd kernel size of at least
    1, and a fiducial size whose upper bound is at most the lower bound of the
    feature size. *)
Definition kernel_ok (self : Profile) : Prop :=
  Z.odd (gauss self) = true /\ 1 <= gauss self.

Definition fiducial_ok (self : Profile) : Prop :=
  snd (circle_size self) <= fst (rect_size self).

Definition normalized (self : Profile) : Prop :=
  kernel_ok self /\ fiducial_ok self.

End DetectionSettings.

(* ================================================================== *)
(** * processing_support.py: geometry helpers *)
(* ================================================================== *)

Module ProcessingSupport.

Export Python.

(** A pixel coordinate pair [(x, y)] of Python [int]s. *)
Definition point : Type := (Z * Z)%type.

(** ** Python built-ins *)

(** [enumerate(l)], counting from [i]. *)
Fixpoint enumerate_from {A : Type} (i : nat) (l : list A) : list (nat * A) :=
  match l with
  | [] => []
  | a :: l' => (i, a) :: enumerate_from (S i) l'
  end.

Definition enumerate {A : Type} (l : list A) : list (nat * A) :=
  enumerate_from 0 l.

(** [min(l)] on a list of indices: [ValueError] on the empty list. *)
Definition py_min (l : list nat) : result nat :=
  match l with
  | [] => raise ValueError
  | i :: l' => ret (fold_left Nat.min l' i)
  end.

(** The conversion of a Python [int] operand of a float operation: the
    binary64 value nearest to it, ties to even; [OverflowError] beyond the
    largest float. *)
Definition float_of_int (a : Z) : result spec_float :=
  match binary_normalize 53 1024 a 0 false with
  | S754_infinity _ => raise OverflowError
  | f => ret f
  end.

(** [a / 2] for a Python [int] [a]: the binary64 value nearest to the exact
    quotient [a * 2^-1], ties to even; [OverflowError] when that is beyond
    the largest float. *)
Definition truediv_2 (a : Z) : result spec_float :=
  match binary_normalize 53 1024 a (-1) false with
  | S754_infinity _ => raise OverflowError
  | f => ret f
  end.

(** ** NumPy and SciPy on binary64

    A pixel coordinate is a Python [int]; NumPy holds a tuple or a list of
    them as an [int64] array, and SciPy's k-d tree as a [float64] array. *)

(** A point of a [float64] array. *)
Definition fpoint : Type := (spec_float * spec_float)%type.

(** The conversion of a point to [float64]. *)
Definition asarray_float64 (p : point) : result fpoint :=
  x <- float_of_int (fst p) ;;
  y <- float_of_int (snd p) ;;
  ret (x, y).

Fixpoint asarray_float64_list (l : list point) : result (list fpoint) :=
  match l with
  | [] => ret []
  | p :: l' =>
      fp <- asarray_float64 p ;;
      fl <- asarray_float64_list l' ;;
      ret (fp :: fl)
  end.

(** [scipy.spatial.KDTree(data)] converts [data] to a [float64] array, which
    raises [OverflowError] on an [int] beyond the largest float, and takes
    an array of shape [(n, m)]: it raises [ValueError] for anything else,
    and the empty list converts to an array of shape [(0,)]. A tree that
    was built holds at least one point. *)
Record kdtree : Type := mk_kdtree {
  tree_head : fpoint;
  tree_tail : list fpoint
}.

Definition KDTree (data : list point) : result kdtree :=
  match data with
  | [] => raise ValueError
  | p :: ps =>
      fp <- asarray_float64 p ;;
      fps <- asarray_float64_list ps ;;
      ret (mk_kdtree fp fps)
  end.

(** The squared distance of the k-d tree between two points of the plane:
    [[
      s = 0.0
      for (i = 0; i < n; ++i) { double d = u[i] - v[i]; s += d * d; }
    ]] *)
Definition sqeuclidean_distance_double (u v : fpoint) : spec_float :=
  let s := S754_zero false in
  let d := SFsub 53 1024 (fst u) (fst v) in
  let s := SFadd 53 1024 s (SFmul 53 1024 d d) in
  let d := SFsub 53 1024 (snd u) (snd v) in
  SFadd 53 1024 s (SFmul 53 1024 d d).

(** The smaller of two floats, neither a NaN. *)
Definition float_min (a b : spec_float) : spec_float :=
  if SFleb a b then a else b.

(** [tree.query([x])]: the query point is converted to [float64]; the
    distance returned is the square root of the least squared distance to a
    point of the tree. (The index the query also returns is not used by the
    caller.) *)
Definition query (tree : kdtree) (x : point) : result spec_float :=
  fx <- asarray_float64 x ;;
  ret (SFsqrt 53 1024
         (fold_left
            (fun s p => float_min s (sqeuclidean_distance_double fx p))
            (tree_tail tree)
            (sqeuclidean_distance_double fx (tree_head tree)))).

(** [int64] arithmetic wraps around. *)
Definition wrap_int64 (z : Z) : Z := (z + 2 ^ 63) mod 2 ^ 64 - 2 ^ 63.

(** The conversion of an [int64] to [float64]: the nearest float, ties to
    even. *)
Definition float_of_int64 (z : Z) : spec_float :=
  binary_normalize 53 1024 z 0 false.

(** The fused multiply-add [x * y + z]: the exact product and sum, rounded
    once. *)
Definition SFfma (x y z : spec_float) : spec_float :=
  match x, y with
  | S754_finite sx mx ex, S754_finite sy my ey =>
      match z with
      | S754_finite sz mz ez =>
          let ep := ex + ey in
          let e := Z.min ep ez in
          binary_normalize 53 1024
            (cond_Zopp (xorb sx sy) (Z.pos (fst (shl_align (mx * my) ep e)))
             + cond_Zopp sz (Z.pos (fst (shl_align mz ez e))))
            e false
      | S754_zero _ => SFmul 53 1024 x y
      | _ => z
      end
  | _, _ => SFadd 53 1024 (SFmul 53 1024 x y) z
  end.

(** [scipy.spatial.distance.euclidean(u, v)] on two points of [int]
    coordinates: [norm(u - v)]. The difference is taken on the [int64]
    arrays; [numpy.linalg.norm] converts it to [float64] and returns
    [sqrt(x.dot(x))], and the dot product of the BLAS kernel accumulates
    [dot += x[i] * x[i]] with a fused multiply-add. *)
Definition euclidean (u v : point) : spec_float :=
  let u_v := [wrap_int64 (fst u - fst v); wrap_int64 (snd u - snd v)] in
  let x := map float_of_int64 u_v in
  let sqnorm := fold_left (fun dot xi => SFfma xi xi dot) x (S754_zero false) in
  SFsqrt 53 1024 sqnorm.

(** ** The functions of the module *)

(** [get_nearest_point(check_point, references)]:
    [[
      tree = spatial.KDTree(references)
      distance, index = tree.query([check_point])
      min_distance = float(distance[0])
      nearest_indices = [i for i, ref in enumerate(references) if
                         spatial.distance.euclidean(check_point, ref)
                           == min_distance]
      min_index = min(nearest_indices)
      return min_index, min_distance
    ]] *)
Definition nearest_indices (check_point : point) (references : list point)
    (min_distance : spec_float) : list nat :=
  map fst
    (filter (fun ir => SFeqb (euclidean check_point (snd ir)) min_distance)
       (enumerate references)).

Definition get_nearest_point (check_point : point) (references : list point)
  : result (nat * spec_float) :=
  tree <- KDTree references ;;
  min_distance <- query tree check_point ;;
  min_index <- py_min (nearest_indices check_point references min_distance) ;;
  ret (min_index, min_distance).

(** [get_pxl_midpoint(point1, point2)]:
    [[
      x_point = int((point1[0] + point2[0]) / 2)
      y_point = int((point1[1] + point2[1]) / 2)
      return x_point, y_point
    ]] *)
Definition get_pxl_midpoint (point1 point2 : point) : result point :=
  x_half <- truediv_2 (fst point1 + fst point2) ;;
  x_point <- int_of_float x_half ;;
  y_half <- truediv_2 (snd point1 + snd point2) ;;
  y_point <- int_of_float y_half ;;
  ret (x_point, y_point).

(** ** Cropping *)

(** A monochrome image: the rows of a two-dimensional array of pixel
    values. *)
Definition image : Type := list (list Z).

(** [a.size] of a two-dimensional array: rows times columns. *)
Definition array_size (a : image) : Z :=
  match a with
  | [] => 0
  | row :: _ => Z.of_nat (List.length a) * Z.of_nat (List.length row)
  end.

(** [a - f] and [a + f] for a Python [int] [a] and a float [f]. *)
Definition int_sub_float (a : Z) (f : spec_float) : result spec_float :=
  af <- float_of_int a ;;
  ret (SFsub 53 1024 af f).

Definition int_add_float (a : Z) (f : spec_float) : result spec_float :=
  af <- float_of_int a ;;
  ret (SFadd 53 1024 af f).

(** A bound [i] of a slice of a sequence of length [n], as Python adjusts
    it: a negative bound counts from the end, and the result is clipped to
    [0 .. n]. *)
Definition slice_index (n i : Z) : Z :=
  if i <? 0 then Z.max (i + n) 0 else Z.min i n.

(** [l[start:stop]]. *)
Definition slice {A : Type} (l : list A) (start stop : Z) : list A :=
  let n := Z.of_nat (List.length l) in
  let lo := slice_index n start in
  let hi := slice_index n stop in
  firstn (Z.to_nat (hi - lo)) (skipn (Z.to_nat lo) l).

(** [crop_image(image_array_mono, roi_center, roi_size_wh)]:
    [[
      cropped_image = np.array([])
      roi_width, roi_height = roi_size_wh
      if image_array_mono.size:
          left = int(roi_center[0] - roi_width / 2)
          top = int(roi_center[1] - roi_height / 2)
          right = int(roi_center[0] + roi_width / 2)
          bottom = int(roi_center[1] + roi_height / 2)
          cropped_image = image_array_mono.copy()[top:bottom, left:right]
      return cropped_image
    ]]
    The empty array [np.array([])] is the image without rows. *)
Definition crop_image (image_array_mono : image) (roi_center : point)
    (roi_size_wh : Z * Z) : result image :=
  let '(roi_width, roi_height) := roi_size_wh in
  if array_size image_array_mono =? 0 then ret []
  else
    half_width <- truediv_2 roi_width ;;
    left_f <- int_sub_float (fst roi_center) half_width ;;
    left <- int_of_float left_f ;;
    half_height <- truediv_2 roi_height ;;
    top_f <- int_sub_float (snd roi_center) half_height ;;
    top <- int_of_float top_f ;;
    half_width <- truediv_2 roi_width ;;
    right_f <- int_add_float (fst roi_center) half_width ;;
    right <- int_of_float right_f ;;
    half_height <- truediv_2 roi_height ;;
    bottom_f <- int_add_float (snd roi_center) half_height ;;
    bottom <- int_of_float bottom_f ;;
    ret (map (fun row => slice row left right)
           (slice image_array_mono top bottom)).

(** [a[i, j]] for non-negative indices; [None] where Python raises
    [IndexError]. *)
Definition pixel (a : image) (i j : Z) : option Z :=
  match nth_error a (Z.to_nat i) with
  | Some row => nth_error row (Z.to_nat j)
  | None => None
  end.

(** An array of shape [(rows, cols)]. *)
Definition has_shape (a : image) (rows cols : Z) : Prop :=
  Z.of_nat (List.length a) = rows /\
  Forall (fun row => Z.of_nat (List.length row) = cols) a.

End ProcessingSupport.


(* ================================================================== *)
(** * The nearest candidate over the real numbers *)
(* ================================================================== *)

(** The reference for [get_nearest_point]: the same selection with exact
    distances in place of binary64 ones. *)
Module NearestPoint.
Import ProcessingSupport.

(** A Euclidean distance between two integer points is the square root of an
    integer. [Sqrt n] stands for the square root of [n]. The square root is
    strictly increasing on the non-negative numbers, so two distances are
    equal, or ordered, as their radicands are. *)
Inductive distance : Type :=
| Sqrt (n : Z).

Definition radicand (d : distance) : Z := let 'Sqrt n := d in n.

Definition distance_eqb (d1 d2 : distance) : bool :=
  radicand d1 =? radicand d2.

Definition distance_leb (d1 d2 : distance) : bool :=
  radicand d1 <=? radicand d2.

Definition distance_min (d1 d2 : distance) : distance :=
  if distance_leb d1 d2 then d1 else d2.

(** The real number a distance stands for. *)
Definition distance_value (d : distance) : R := sqrt (IZR (radicand d)).

(** The Euclidean distance of two points. *)
Definition exact_euclidean (u v : point) : distance :=
  Sqrt ((fst u - fst v) ^ 2 + (snd u - snd v) ^ 2).

(** A non-empty list of candidates; no value on the empty list. *)
Record candidates : Type := mk_candidates {
  first_candidate : point;
  other_candidates : list point
}.

Definition exact_candidates (data : list point) : result candidates :=
  match data with
  | [] => raise ValueError
  | p :: ps => ret (mk_candidates p ps)
  end.

(** The least distance from [x] to a candidate. *)
Definition exact_query (tree : candidates) (x : point) : distance :=
  fold_left (fun d p => distance_min d (exact_euclidean x p))
    (other_candidates tree) (exact_euclidean x (first_candidate tree)).

(** The indices of the candidates at distance [min_distance]. *)
Definition exact_nearest_indices (check_point : point)
    (references : list point) (min_distance : distance) : list nat :=
  map fst
    (filter (fun ir => distance_eqb (exact_euclidean check_point (snd ir))
                         min_distance)
       (enumerate references)).

(** The lowest index of a nearest candidate, with its distance; no value on
    the empty list. *)
Definition exact_nearest_point (check_point : point)
    (references : list point) : result (nat * distance) :=
  tree <- exact_candidates references ;;
  let min_distance := exact_query tree check_point in
  min_index <- py_min (exact_nearest_indices check_point references
                         min_distance) ;;
  ret (min_index, min_distance).

(** The binary64 value of a distance: the float nearest to the square root,
    for a radicand that is a float. *)
Definition distance_float (d : distance) : spec_float :=
  SFsqrt 53 1024 (float_of_int64 (radicand d)).

(** The [float64] array of a point whose coordinates are floats. *)
Definition to_float64 (p : point) : fpoint :=
  (float_of_int64 (fst p), float_of_int64 (snd p)).

(** Pixel coordinates: integers of magnitude at most [2^24]. *)
Definition small_point (p : point) : Prop :=
  Z.abs (fst p) <= 2 ^ 24 /\ Z.abs (snd p) <= 2 ^ 24.

End NearestPoint.


(* ================================================================== *)
(** * Properties of the detection profiles *)
(* ================================================================== *)

Module DetectionSettingsFacts.
Import Python DetectionSettings.

#[local] Open Scope string_scope.

(** ** Kernel normalization *)

Lemma even_to_odd_cases (val : Z) :
  (val < 0 /\ even_to_odd_int val = 1) \/
  (0 <= val /\ Z.even val = true /\ even_to_odd_int val = val + 1) \/
  (0 <= val /\ Z.odd val = true /\ even_to_odd_int val = val).
Proof.
  unfold even_to_odd_int.
  destruct (Z.ltb_spec val 0) as [Hneg | Hpos]; [left; easy | right].
  rewrite Zmod_even.
  destruct (Z.even val) eqn:Hev; cbn.
  - left; easy.
  - right. rewrite <- Z.negb_even, Hev. easy.
Qed.

Lemma even_to_odd_is_odd (val : Z) : Z.odd (even_to_odd_int val) = true.
Proof.
  destruct (even_to_odd_cases val) as [[_ ->] | [(_ & Hev & ->) | (_ & Hod & ->)]].
  - reflexivity.
  - rewrite Z.odd_add, <- Z.negb_even, Hev. reflexivity.
  - exact Hod.
Qed.

Lemma even_to_odd_ge_1 (val : Z) : 1 <= even_to_odd_int val.
Proof.
  destruct (even_to_odd_cases val) as [[_ ->] | [(Hpos & _ & ->) | (Hpos & Hod & ->)]].
  - lia.
  - lia.
  - destruct (Z.eq_dec val 0) as [-> | Hnz]; [discriminate Hod | lia].
Qed.


Lemma even_to_odd_on_int (val : Z) :
  _even_to_odd (Int val) = ret (even_to_odd_int val).
Proof.
  unfold _even_to_odd, even_to_odd_int. cbn [lt_zero to_int add_one bind ret].
  destruct (val <? 0)%Z; [reflexivity |].
  destruct (val mod 2 =? 0)%Z; reflexivity.
Qed.

(** ** The fiducial clamp *)

Lemma limit_fiducial_size_circle (self : Profile) :
  circle_size (_limit_fiducial_size self) =
    if snd (circle_size self) >? fst (rect_size self) then
      (if fst (circle_size self) >? fst (rect_size self) then 0
       else fst (circle_size self),
       fst (rect_size self))
    else circle_size self.
Proof.
  unfold _limit_fiducial_size.
  destruct (circle_size self) as [new_min new_max] eqn:Hc; cbn [fst snd].
  destruct (new_max >? fst (rect_size self)); [reflexivity | exact Hc].
Qed.

Lemma limit_fiducial_size_rect (self : Profile) :
  rect_size (_limit_fiducial_size self) = rect_size self.
Proof.
  unfold _limit_fiducial_size.
  destruct (circle_size self) as [new_min new_max]; cbn [fst snd].
  destruct (new_max >? fst (rect_size self)); reflexivity.
Qed.

Lemma limit_fiducial_size_ok (self : Profile) :
  fiducial_ok (_limit_fiducial_size self).
Proof.
  unfold fiducial_ok.
  rewrite limit_fiducial_size_rect, limit_fiducial_size_circle.
  destruct (Z.gtb_spec (snd (circle_size self)) (fst (rect_size self)));
    cbn [fst snd]; lia.
Qed.




(** C4. For every pair of [circle_size] and [rect_size] ranges, after
    [_limit_fiducial_size] the upper bound of [circle_size] is at most the
    lower bound of [rect_size]. The upper bound is replaced by the lower
    bound of [rect_size] exactly when it exceeded it, and in that case the
    lower bound is reset to 0 when it exceeds the new upper bound too. *)
Theorem limit_fiducial_size_clamps (self : Profile) :
  let c := circle_size self in
  let r := rect_size self in
  let c' := circle_size (_limit_fiducial_size self) in
  snd c' <= fst r /\
  snd c' = (if snd c >? fst r then fst r else snd c) /\
  fst c' = (if (snd c >? fst r) && (fst c >? fst r) then 0 else fst c).
Proof.
  cbv zeta. split; [| split].
  - pose proof (limit_fiducial_size_ok self) as Hok.
    unfold fiducial_ok in Hok.
    rewrite limit_fiducial_size_rect in Hok. exact Hok.
  - rewrite limit_fiducial_size_circle.
    destruct (snd (circle_size self) >? fst (rect_size self)); reflexivity.
  - rewrite limit_fiducial_size_circle.
    destruct (snd (circle_size self) >? fst (rect_size self)); reflexivity.
Qed.



(** C10. [_limit_fiducial_size] assigns no attribute but [circle_size]:
    [rect_size] and the eleven other attributes keep their values, and the
    lower bound of [circle_size] is either its former value or 0. *)
Theorem limit_fiducial_size_frame (self : Profile) :
  let self' := _limit_fiducial_size self in
  rect_size self' = rect_size self /\
  circularity_min self' = circularity_min self /\
  default_pivot_point self' = default_pivot_point self /\
  deviation_cutoff self' = deviation_cutoff self /\
  gauss self' = gauss self /\
  hough_min_length self' = hough_min_length self /\
  threshold self' = threshold self /\
  ang2pxl self' = ang2pxl self /\
  default_clock_angle self' = default_clock_angle self /\
  fid_triangle_area self' = fid_triangle_area self /\
  orientation_left self' = orientation_left self /\
  orientation_right self' = orientation_right self /\
  (fst (circle_size self') = fst (circle_size self) \/
   fst (circle_size self') = 0).
Proof.
  cbv zeta.
  repeat match goal with |- _ /\ _ => split end;
    try (unfold _limit_fiducial_size;
         destruct (circle_size self) as [new_min new_max]; cbn [fst snd];
         destruct (new_max >? fst (rect_size self)); reflexivity).
  rewrite limit_fiducial_size_circle.
  destruct (snd (circle_size self) >? fst (rect_size self)); cbn [fst];
    [destruct (fst (circle_size self) >? fst (rect_size self)) |]; auto.
Qed.

(** ** Specialization tags *)

(** C6. For every profile class and every tag that is not one of the
    strings the class tests for, [set_test_system_specifics] returns the
    profile it was given, every attribute unchanged; the call is total, so
    nothing is raised. *)
Theorem unknown_tag_is_noop (cls : detection_class) (test_system : string)
    (self : Profile) :
  ~ In test_system (whitelist cls) ->
  set_test_system_specifics cls test_system self = self.
Proof.
  intros Hout.
  destruct cls; cbn in *; try reflexivity.
  - destruct (String.eqb_spec test_system "JOHNNY5") as [-> | _];
      [exfalso; auto |].
    destruct (String.eqb_spec test_system "BAT") as [-> | _];
      [exfalso; auto | reflexivity].
  - destruct (String.eqb_spec test_system "PIN") as [-> | _];
      [exfalso; auto | reflexivity].
  - destruct (String.eqb_spec test_system "TET") as [-> | _];
      [exfalso; auto | reflexivity].
Qed.

Lemma unknown_tag_is_noop_witness :
  ~ In "BIG" (whitelist ML2Detection) /\
  set_test_system_specifics ML2Detection "BIG" (construct ML2Detection None)
    = construct ML2Detection None.
Proof.
  assert (Hout : ~ In "BIG" (whitelist ML2Detection)).
  { cbn. intros [H | []]. discriminate H. }
  split; [exact Hout |].
  exact (unknown_tag_is_noop ML2Detection "BIG" _ Hout).
Defined.

(** ** Constructed profiles *)

(** The kernel size the base initializer stores is the result of
    [_even_to_odd] on the class attribute, an [int]. *)
Lemma DefaultDetection_init_gauss (self : Profile) :
  _even_to_odd (Int (gauss self)) = ret (gauss (DefaultDetection_init self)).
Proof.
  rewrite even_to_odd_on_int. f_equal.
  unfold DefaultDetection_init, _limit_fiducial_size. cbn [circle_size set_gauss].
  destruct (circle_size self) as [new_min new_max].
  destruct (snd (new_min, new_max) >? _)%Z; reflexivity.
Qed.

Lemma base_init_normalized :
  normalized (DefaultDetection_init class_attributes).
Proof.
  unfold normalized, kernel_ok, fiducial_ok. cbn. repeat split; lia.
Qed.

(** C1. Every class of the catalog, instantiated with any value of the
    [test_system] keyword or without it, yields a profile whose kernel size
    is an odd integer of at least 1 and whose [circle_size] upper bound is
    at most the lower bound of [rect_size]. *)
Theorem constructed_profile_normalized (cls : detection_class)
    (kwargs : option string) :
  normalized (construct cls kwargs).
Proof.
  unfold normalized, kernel_ok, fiducial_ok.
  destruct cls; destruct kwargs as [test_system |];
    cbn - [String.eqb];
    repeat match goal with
           | |- context [String.eqb ?a ?b] => destruct (String.eqb a b)
           end;
    cbn; repeat split; lia.
Qed.

(** ** Further properties of the kernel normalization *)

Lemma even_to_odd_above (val : Z) : val <= even_to_odd_int val.
Proof.
  destruct (even_to_odd_cases val) as [[Hneg ->] | [(_ & _ & ->) | (_ & _ & ->)]];
    lia.
Qed.

Lemma even_to_odd_below_odd (val n : Z) :
  Z.odd n = true -> 1 <= n -> val <= n -> even_to_odd_int val <= n.
Proof.
  intros Hodd Hpos Hle.
  destruct (even_to_odd_cases val) as [[_ ->] | [(_ & Hev & ->) | (_ & _ & ->)]].
  - exact Hpos.
  - destruct (Z.eq_dec n val) as [-> | Hne]; [| lia].
    rewrite <- Z.negb_even, Hev in Hodd. discriminate Hodd.
  - exact Hle.
Qed.



(** X2. [_even_to_odd] is monotone on Python [int]s: a larger requested
    kernel never gives a smaller kernel. *)
Theorem even_to_odd_monotone (val val' : Z) :
  val <= val' ->
  exists r r' : Z,
    _even_to_odd (Int val) = ret r /\ _even_to_odd (Int val') = ret r' /\
    r <= r'.
Proof.
  intros Hle. exists (even_to_odd_int val), (even_to_odd_int val').
  split; [apply even_to_odd_on_int | split; [apply even_to_odd_on_int |]].
  apply even_to_odd_below_odd.
  - apply even_to_odd_is_odd.
  - apply even_to_odd_ge_1.
  - pose proof (even_to_odd_above val'). lia.
Qed.

Lemma even_to_odd_monotone_witness :
  exists r r' : Z,
    _even_to_odd (Int (-4)) = ret r /\ _even_to_odd (Int 6) = ret r' /\
    r <= r'.
Proof. apply (even_to_odd_monotone (-4) 6). lia. Defined.

(** ** Further properties of the fiducial clamp *)

(** X3. On an ordered range of non-negative sizes and a non-negative feature
    lower bound, [_limit_fiducial_size] leaves an ordered range of
    non-negative sizes, and neither bound grows. *)
Theorem limit_fiducial_size_ordered (self : Profile) :
  0 <= fst (circle_size self) <= snd (circle_size self) ->
  0 <= fst (rect_size self) ->
  let c' := circle_size (_limit_fiducial_size self) in
  0 <= fst c' <= snd c' /\
  fst c' <= fst (circle_size self) /\
  snd c' <= snd (circle_size self).
Proof.
  intros Hc Hr. cbv zeta. rewrite limit_fiducial_size_circle.
  destruct (Z.gtb_spec (snd (circle_size self)) (fst (rect_size self)));
    cbn [fst snd]; [| lia].
  destruct (Z.gtb_spec (fst (circle_size self)) (fst (rect_size self))); lia.
Qed.

Lemma limit_fiducial_size_ordered_witness :
  let self := set_rect_size (4000, 30000) class_attributes in
  let c' := circle_size (_limit_fiducial_size self) in
  0 <= fst c' <= snd c' /\
  fst c' <= fst (circle_size self) /\
  snd c' <= snd (circle_size self).
Proof.
  apply (limit_fiducial_size_ordered
           (set_rect_size (4000, 30000) class_attributes)); cbn; lia.
Defined.

(** ** Further properties of the specialization tags *)

(** X4. Whatever the class and the tag, [set_test_system_specifics] leaves
    [rect_size], [deviation_cutoff] and [threshold] as they were. *)
Theorem specialization_frame (cls : detection_class) (test_system : string)
    (self : Profile) :
  let self' := set_test_system_specifics cls test_system self in
  rect_size self' = rect_size self /\
  deviation_cutoff self' = deviation_cutoff self /\
  threshold self' = threshold self.
Proof.
  cbv zeta. destruct cls; cbn - [String.eqb];
    repeat match goal with
           | |- context [String.eqb ?a ?b] => destruct (String.eqb a b)
           end;
    repeat split.
Qed.

(** X5. Applying a tag twice is the same as applying it once. *)
Theorem specialization_idempotent (cls : detection_class)
    (test_system : string) (self : Profile) :
  set_test_system_specifics cls test_system
    (set_test_system_specifics cls test_system self)
  = set_test_system_specifics cls test_system self.
Proof.
  destruct cls; cbn - [String.eqb];
    repeat match goal with
           | |- context [String.eqb ?a ?b] => destruct (String.eqb a b)
           end;
    reflexivity.
Qed.

(** X6. [set_test_system_specifics] keeps a normalized profile normalized,
    provided that, for [MidasDetection], the lower bound of [rect_size] is at
    least 10000 (the upper bound of the [circle_size] its tag assigns). *)
Theorem specialization_keeps_normalized (cls : detection_class)
    (test_system : string) (self : Profile) :
  normalized self ->
  (cls = MidasDetection -> 10000 <= fst (rect_size self)) ->
  normalized (set_test_system_specifics cls test_system self).
Proof.
  unfold normalized, kernel_ok, fiducial_ok.
  intros Hnorm Hmidas.
  destruct cls; cbn - [String.eqb];
    repeat match goal with
           | |- context [String.eqb ?a ?b] => destruct (String.eqb a b)
           end;
    try exact Hnorm.
  cbn. specialize (Hmidas eq_refl). repeat split; lia.
Qed.

Lemma specialization_keeps_normalized_witness :
  normalized
    (set_test_system_specifics MidasDetection "PIN"
       (construct MidasDetection None)).
Proof.
  apply (specialization_keeps_normalized MidasDetection "PIN"
           (construct MidasDetection None)).
  - unfold normalized, kernel_ok, fiducial_ok. cbn. repeat split; lia.
  - intros _. cbn. lia.
Defined.

(** X7. The tag ["PIN"] assigns [circle_size] without clamping it: on a
    profile whose [rect_size] lower bound is below 10000 the result violates
    the fiducial invariant, which [_limit_fiducial_size] would restore. *)
Theorem midas_pin_skips_clamp (self : Profile) :
  fst (rect_size self) < 10000 ->
  let self' := set_test_system_specifics MidasDetection "PIN" self in
  ~ fiducial_ok self' /\ fiducial_ok (_limit_fiducial_size self').
Proof.
  intros Hlt. cbv zeta. split.
  - unfold fiducial_ok. cbn. lia.
  - apply limit_fiducial_size_ok.
Qed.

Lemma midas_pin_skips_clamp_witness :
  let self := set_rect_size (5000, 35000) (construct MidasDetection None) in
  let self' := set_test_system_specifics MidasDetection "PIN" self in
  ~ fiducial_ok self' /\ fiducial_ok (_limit_fiducial_size self').
Proof.
  apply (midas_pin_skips_clamp
           (set_rect_size (5000, 35000) (construct MidasDetection None))).
  cbn. lia.
Defined.

(** X8. A tag changes the constructed profile exactly when it is one of the
    strings the class tests for: with any other tag the instance equals the
    one built without a tag. *)
Theorem construct_tag_effective (cls : detection_class)
    (test_system : string) :
  construct cls (Some test_system) = construct cls None <->
  ~ In test_system (whitelist cls).
Proof.
  split.
  - intros Heq Hin. destruct cls; cbn in Hin.
    + exact Hin.
    + destruct Hin as [<- | [<- | []]].
      * apply (f_equal hough_min_length) in Heq. discriminate Heq.
      * apply (f_equal default_pivot_point) in Heq. discriminate Heq.
    + destruct Hin as [<- | []].
      apply (f_equal ang2pxl) in Heq. discriminate Heq.
    + destruct Hin as [<- | []].
      apply (f_equal ang2pxl) in Heq. discriminate Heq.
    + exact Hin.
    + exact Hin.
  - intros Hout. destruct cls; cbn in Hout |- *; try reflexivity.
    + destruct (String.eqb_spec test_system "JOHNNY5") as [-> | _];
        [exfalso; auto |].
      destruct (String.eqb_spec test_system "BAT") as [-> | _];
        [exfalso; auto | reflexivity].
    + destruct (String.eqb_spec test_system "PIN") as [-> | _];
        [exfalso; auto | reflexivity].
    + destruct (String.eqb_spec test_system "TET") as [-> | _];
        [exfalso; auto | reflexivity].
Qed.

End DetectionSettingsFacts.

(* ================================================================== *)
(** * Properties of the geometry helpers *)
(* ================================================================== *)

Module ProcessingSupportFacts.
Import ProcessingSupport NearestPoint.

(** ** Exact distances *)

Lemma distance_eqb_eq (d1 d2 : distance) :
  distance_eqb d1 d2 = true <-> d1 = d2.
Proof.
  destruct d1 as [n1], d2 as [n2]. unfold distance_eqb. cbn.
  rewrite Z.eqb_eq. split; [intros -> | intros [= ->]]; reflexivity.
Qed.

Lemma distance_leb_le (d1 d2 : distance) :
  distance_leb d1 d2 = true <-> radicand d1 <= radicand d2.
Proof. unfold distance_leb. apply Z.leb_le. Qed.

Lemma distance_min_le_l (d1 d2 : distance) :
  radicand (distance_min d1 d2) <= radicand d1.
Proof.
  unfold distance_min, distance_leb.
  destruct (Z.leb_spec (radicand d1) (radicand d2)); lia.
Qed.

Lemma distance_min_le_r (d1 d2 : distance) :
  radicand (distance_min d1 d2) <= radicand d2.
Proof.
  unfold distance_min, distance_leb.
  destruct (Z.leb_spec (radicand d1) (radicand d2)); lia.
Qed.

Lemma distance_min_cases (d1 d2 : distance) :
  distance_min d1 d2 = d1 \/ distance_min d1 d2 = d2.
Proof. unfold distance_min. destruct (distance_leb d1 d2); auto. Qed.

(** The order and the equality of distances are those of the real numbers
    they stand for. *)
Lemma exact_euclidean_radicand_nonneg (u v : point) : 0 <= radicand (exact_euclidean u v).
Proof.
  unfold exact_euclidean, radicand.
  generalize (fst u - fst v), (snd u - snd v). intros a b. nia.
Qed.

Lemma distance_value_euclidean (u v : point) :
  distance_value (exact_euclidean u v)
    = sqrt ((IZR (fst u) - IZR (fst v)) ^ 2 + (IZR (snd u) - IZR (snd v)) ^ 2)%R.
Proof.
  unfold distance_value. cbn [exact_euclidean radicand]. f_equal.
  rewrite plus_IZR. change 2 with (Z.of_nat 2).
  rewrite <- !pow_IZR, !minus_IZR. reflexivity.
Qed.

Lemma distance_leb_value (d1 d2 : distance) :
  0 <= radicand d1 -> 0 <= radicand d2 ->
  distance_leb d1 d2 = true <-> (distance_value d1 <= distance_value d2)%R.
Proof.
  intros H1 H2. rewrite distance_leb_le. unfold distance_value. split.
  - intros Hle. apply sqrt_le_1_alt, IZR_le, Hle.
  - intros Hle. apply le_IZR, sqrt_le_0; [apply IZR_le, H1 | apply IZR_le, H2 |].
    exact Hle.
Qed.

Lemma distance_eq_value (d1 d2 : distance) :
  0 <= radicand d1 -> 0 <= radicand d2 ->
  d1 = d2 <-> distance_value d1 = distance_value d2.
Proof.
  intros H1 H2. split; [intros ->; reflexivity |].
  unfold distance_value. intros Heq.
  apply sqrt_inj in Heq; [| apply IZR_le, H1 | apply IZR_le, H2].
  apply eq_IZR in Heq. destruct d1, d2. cbn in Heq. congruence.
Qed.

(** ** The least exact distance *)

Section Query.
Variable x : point.

Let step (d : distance) (p : point) : distance :=
  distance_min d (exact_euclidean x p).

Lemma fold_min_le_init (l : list point) (d : distance) :
  radicand (fold_left step l d) <= radicand d.
Proof.
  revert d. induction l as [| p l IH]; intros d; cbn [fold_left].
  - lia.
  - specialize (IH (step d p)).
    pose proof (distance_min_le_l d (exact_euclidean x p)). unfold step in *. lia.
Qed.

Lemma fold_min_le_elem (l : list point) (d : distance) (p : point) :
  In p l -> radicand (fold_left step l d) <= radicand (exact_euclidean x p).
Proof.
  revert d. induction l as [| q l IH]; intros d Hin; cbn [fold_left].
  - destruct Hin.
  - destruct Hin as [-> | Hin].
    + pose proof (fold_min_le_init l (step d p)).
      pose proof (distance_min_le_r d (exact_euclidean x p)). unfold step in *. lia.
    + apply IH, Hin.
Qed.

Lemma fold_min_attained (l : list point) (d : distance) :
  fold_left step l d = d \/
  exists p, In p l /\ fold_left step l d = exact_euclidean x p.
Proof.
  revert d. induction l as [| q l IH]; intros d; cbn [fold_left].
  - left. reflexivity.
  - destruct (IH (step d q)) as [Heq | (p & Hin & Heq)].
    + rewrite Heq. unfold step.
      destruct (distance_min_cases d (exact_euclidean x q)) as [-> | ->].
      * left. reflexivity.
      * right. exists q. split; [left |]; reflexivity.
    + right. exists p. split; [right; exact Hin | exact Heq].
Qed.

Lemma exact_query_le (tree : candidates) (p : point) :
  In p (first_candidate tree :: other_candidates tree) ->
  radicand (exact_query tree x) <= radicand (exact_euclidean x p).
Proof.
  unfold exact_query. intros [<- | Hin].
  - apply fold_min_le_init.
  - apply fold_min_le_elem, Hin.
Qed.

Lemma exact_query_attained (tree : candidates) :
  exists p, In p (first_candidate tree :: other_candidates tree) /\
            exact_query tree x = exact_euclidean x p.
Proof.
  unfold exact_query.
  destruct (fold_min_attained (other_candidates tree) (exact_euclidean x (first_candidate tree)))
    as [Heq | (p & Hin & Heq)].
  - exists (first_candidate tree). split; [left; reflexivity | exact Heq].
  - exists p. split; [right; exact Hin | exact Heq].
Qed.
End Query.

(** ** [enumerate], the comprehension and [min] *)

Lemma in_enumerate_from {A : Type} (l : list A) (k i : nat) (a : A) :
  In (i, a) (enumerate_from k l) <->
  (k <= i)%nat /\ nth_error l (i - k) = Some a.
Proof.
  revert k. induction l as [| b l IH]; intros k; cbn.
  - split; [intros [] | intros [_ H]]. destruct (i - k)%nat; discriminate H.
  - rewrite IH. split.
    + intros [[= <- <-] | [Hle Hnth]].
      * rewrite Nat.sub_diag. auto.
      * split; [lia |].
        replace (i - k)%nat with (S (i - S k)) by lia. exact Hnth.
    + intros [Hle Hnth].
      destruct (Nat.eq_dec k i) as [<- | Hne].
      * rewrite Nat.sub_diag in Hnth. injection Hnth as <-. left. reflexivity.
      * right. split; [lia |].
        replace (i - k)%nat with (S (i - S k)) in Hnth by lia. exact Hnth.
Qed.

Lemma in_exact_nearest_indices (check_point : point) (references : list point)
    (d : distance) (i : nat) :
  In i (exact_nearest_indices check_point references d) <->
  exists r, nth_error references i = Some r /\ exact_euclidean check_point r = d.
Proof.
  unfold exact_nearest_indices, enumerate. rewrite in_map_iff. split.
  - intros ([j r] & <- & Hin). apply filter_In in Hin as [Hin Heq]. cbn in *.
    apply in_enumerate_from in Hin as [_ Hnth]. rewrite Nat.sub_0_r in Hnth.
    exists r. split; [exact Hnth | apply distance_eqb_eq, Heq].
  - intros (r & Hnth & Heq). exists (i, r). split; [reflexivity |].
    apply filter_In. split.
    + apply in_enumerate_from. rewrite Nat.sub_0_r. split; [lia | exact Hnth].
    + apply distance_eqb_eq, Heq.
Qed.

Lemma fold_nat_min_le (l : list nat) (i : nat) :
  (fold_left Nat.min l i <= i)%nat /\
  (forall j, In j l -> (fold_left Nat.min l i <= j)%nat) /\
  In (fold_left Nat.min l i) (i :: l).
Proof.
  revert i. induction l as [| k l IH]; intros i; cbn.
  - repeat split; [lia | intros j [] | auto].
  - destruct (IH (Nat.min i k)) as (Hle & Hall & Hin). repeat split.
    + lia.
    + intros j [<- | Hj]; [lia | apply Hall, Hj].
    + destruct Hin as [Hin | Hin]; [| auto].
      rewrite <- Hin. destruct (Nat.min_spec i k) as [[_ ->] | [_ ->]]; auto.
Qed.

Lemma py_min_least (l : list nat) (i : nat) :
  In i l ->
  exists m, py_min l = ret m /\ In m l /\
            forall j, In j l -> (m <= j)%nat.
Proof.
  destruct l as [| k l]; [intros [] | intros _]. cbn.
  destruct (fold_nat_min_le l k) as (Hle & Hall & Hin).
  exists (fold_left Nat.min l k). repeat split; [exact Hin |].
  intros j [<- | Hj]; [exact Hle | apply Hall, Hj].
Qed.

Lemma exact_nearest_point_cons (check_point ref : point) (refs : list point) :
  exists (i : nat) (r : point),
    exact_nearest_point check_point (ref :: refs)
      = ret (i, exact_euclidean check_point r) /\
    nth_error (ref :: refs) i = Some r /\
    (forall p, In p (ref :: refs) ->
       radicand (exact_euclidean check_point r) <= radicand (exact_euclidean check_point p))
    /\
    (forall j, In j (exact_nearest_indices check_point (ref :: refs)
                       (exact_euclidean check_point r)) -> (i <= j)%nat).
Proof.
  set (references := ref :: refs).
  set (tree := mk_candidates ref refs).
  set (d := exact_query tree check_point).
  destruct (exact_query_attained check_point tree) as (p & Hp & Hd).
  destruct (In_nth_error references p Hp) as (i0 & Hi0).
  assert (Hin0 : In i0 (exact_nearest_indices check_point references d)).
  { apply in_exact_nearest_indices. exists p. split; [exact Hi0 | symmetry; exact Hd]. }
  destruct (py_min_least _ _ Hin0) as (m & Hmin & Hm & Hleast).
  apply in_exact_nearest_indices in Hm as (r & Hr & Hrd).
  exists m, r. rewrite Hrd. repeat split.
  - change (exact_nearest_point check_point references)
      with (min_index <- py_min (exact_nearest_indices check_point references d) ;;
            ret (min_index, d)).
    rewrite Hmin. reflexivity.
  - exact Hr.
  - intros q Hq. apply (exact_query_le check_point tree q Hq).
  - exact Hleast.
Qed.

(** On a non-empty list of candidates, [exact_nearest_point] returns an
    index [i] and a distance such that: the candidate at [i] is at that
    distance from the query point; no candidate is nearer; and every
    candidate at exactly that distance has an index of at least [i]. *)
Lemma exact_nearest_point_lowest_index (check_point ref : point)
    (refs : list point) :
  exists (i : nat) (r : point),
    exact_nearest_point check_point (ref :: refs)
      = ret (i, exact_euclidean check_point r) /\
    nth_error (ref :: refs) i = Some r /\
    forall (j : nat) (r' : point),
      nth_error (ref :: refs) j = Some r' ->
      distance_leb (exact_euclidean check_point r) (exact_euclidean check_point r') = true
      /\ (exact_euclidean check_point r' = exact_euclidean check_point r -> (i <= j)%nat).
Proof.
  destruct (exact_nearest_point_cons check_point ref refs)
    as (i & r & Hret & Hr & Hmin & Hleast).
  exists i, r. split; [exact Hret | split; [exact Hr |]].
  intros j r' Hj. split.
  - apply distance_leb_le, Hmin. apply (nth_error_In _ j Hj).
  - intros Heq. apply Hleast, in_exact_nearest_indices.
    exists r'. split; [exact Hj | exact Heq].
Qed.

Lemma exact_nearest_point_raises_iff_empty (check_point : point)
    (references : list point) (e : exception) :
  exact_nearest_point check_point references = raise e <->
  references = [] /\ e = ValueError.
Proof.
  split.
  - destruct references as [| ref refs].
    + intros [= <-]. auto.
    + destruct (exact_nearest_point_cons check_point ref refs)
        as (i & r & Heq & _).
      rewrite Heq. discriminate.
  - intros [-> ->]. reflexivity.
Qed.

Lemma exact_euclidean_zero_iff (u v : point) : exact_euclidean u v = Sqrt 0 <-> u = v.
Proof.
  destruct u as [ux uy], v as [vx vy]. unfold exact_euclidean. cbn [fst snd]. split.
  - intros [= Hsum].
    assert (ux - vx = 0 /\ uy - vy = 0) as [Hx Hy] by nia.
    f_equal; lia.
  - intros [= -> ->]. rewrite !Z.sub_diag. reflexivity.
Qed.

Lemma exact_nearest_point_of_member (check_point : point)
    (references : list point) (i : nat) :
  nth_error references i = Some check_point ->
  (forall j, (j < i)%nat -> nth_error references j <> Some check_point) ->
  exact_nearest_point check_point references = ret (i, Sqrt 0).
Proof.
  intros Hi Hfirst.
  destruct references as [| ref refs]; [destruct i; discriminate Hi |].
  destruct (exact_nearest_point_cons check_point ref refs)
    as (m & r & Hret & Hr & Hmin & Hleast).
  assert (Hzero : exact_euclidean check_point r = Sqrt 0).
  { pose proof (Hmin check_point (nth_error_In _ _ Hi)) as Hle.
    pose proof (exact_euclidean_radicand_nonneg check_point r) as Hge.
    assert (Hself : exact_euclidean check_point check_point = Sqrt 0)
      by (apply exact_euclidean_zero_iff; reflexivity).
    rewrite Hself in Hle. cbn [radicand] in Hle.
    destruct (exact_euclidean check_point r) as [n]. cbn [radicand] in *.
    f_equal. lia. }
  assert (Hrq : check_point = r) by (apply exact_euclidean_zero_iff, Hzero).
  subst r. rewrite Hret, Hzero. do 2 f_equal.
  assert (Hle : (m <= i)%nat).
  { apply Hleast, in_exact_nearest_indices. exists check_point. auto. }
  destruct (Nat.eq_dec m i) as [Heq | Hne]; [exact Heq |].
  exfalso. apply (Hfirst m); [lia | exact Hr].
Qed.

(** The result depends on the candidates only through their distances to the
    query point. *)
Lemma fold_min_map (f : point -> distance) (l : list point) (d : distance) :
  fold_left (fun d p => distance_min d (f p)) l d
  = fold_left distance_min (map f l) d.
Proof.
  revert d. induction l as [| p l IH]; intros d; cbn; [reflexivity | apply IH].
Qed.

Lemma cons_eq_inv {A : Type} (a b : A) (l l' : list A) :
  a :: l = b :: l' -> a = b /\ l = l'.
Proof. intros [= -> ->]. auto. Qed.

Lemma filter_enumerate_ext (q q' : point) (d : distance)
    (refs refs' : list point) (k : nat) :
  map (exact_euclidean q) refs = map (exact_euclidean q') refs' ->
  map fst (filter (fun ir => distance_eqb (exact_euclidean q (snd ir)) d)
             (enumerate_from k refs))
  = map fst (filter (fun ir => distance_eqb (exact_euclidean q' (snd ir)) d)
               (enumerate_from k refs')).
Proof.
  revert refs' k. induction refs as [| r refs IH]; intros [| r' refs'] k Hmap;
    try discriminate Hmap; [reflexivity |].
  cbn [map] in Hmap. apply cons_eq_inv in Hmap as [Hd Hmap].
  cbn [enumerate_from filter snd]. rewrite Hd.
  destruct (distance_eqb (exact_euclidean q' r') d); cbn [map fst];
    rewrite (IH refs' (S k) Hmap); reflexivity.
Qed.

Lemma exact_nearest_point_ext (q q' : point) (refs refs' : list point) :
  map (exact_euclidean q) refs = map (exact_euclidean q') refs' ->
  exact_nearest_point q refs = exact_nearest_point q' refs'.
Proof.
  intros Hmap.
  destruct refs as [| r refs], refs' as [| r' refs'];
    try discriminate Hmap; [reflexivity |].
  unfold exact_nearest_point, exact_query, exact_nearest_indices, enumerate.
  cbn [exact_candidates bind ret first_candidate other_candidates].
  rewrite (filter_enumerate_ext q q' _ _ _ 0%nat Hmap).
  cbn [map] in Hmap. apply cons_eq_inv in Hmap as [Hd Hmap].
  rewrite (fold_min_map (exact_euclidean q)), (fold_min_map (exact_euclidean q')).
  rewrite Hd, Hmap. reflexivity.
Qed.

Lemma exact_nearest_point_translation (dx dy : Z) (check_point : point)
    (references : list point) :
  exact_nearest_point (fst check_point + dx, snd check_point + dy)
    (map (fun p => (fst p + dx, snd p + dy)) references)
  = exact_nearest_point check_point references.
Proof.
  apply exact_nearest_point_ext. rewrite map_map. apply map_ext.
  intros p. unfold exact_euclidean. cbn [fst snd]. f_equal. ring.
Qed.

Lemma enumerate_from_app {A : Type} (l : list A) (a : A) (k : nat) :
  enumerate_from k (l ++ [a])
  = enumerate_from k l ++ [((k + List.length l)%nat, a)].
Proof.
  revert k. induction l as [| b l IH]; intros k; cbn.
  - rewrite Nat.add_0_r. reflexivity.
  - rewrite IH, Nat.add_succ_r. reflexivity.
Qed.

Lemma exact_nearest_indices_app (q p : point) (refs : list point) (d : distance) :
  exact_nearest_indices q (refs ++ [p]) d
  = exact_nearest_indices q refs d
    ++ (if distance_eqb (exact_euclidean q p) d then [List.length refs] else []).
Proof.
  unfold exact_nearest_indices, enumerate.
  rewrite enumerate_from_app, filter_app, map_app. cbn [filter snd].
  destruct (distance_eqb (exact_euclidean q p) d); reflexivity.
Qed.

Lemma py_min_unique (l : list nat) (m : nat) :
  In m l -> (forall j, In j l -> (m <= j)%nat) -> py_min l = ret m.
Proof.
  intros Hin Hleast.
  destruct (py_min_least l m Hin) as (m' & Hmin & Hin' & Hleast').
  rewrite Hmin. f_equal.
  specialize (Hleast m' Hin'). specialize (Hleast' m Hin). lia.
Qed.

Lemma exact_nearest_point_app (check_point p : point)
    (references : list point) (i : nat) (d : distance) :
  exact_nearest_point check_point references = ret (i, d) ->
  exact_nearest_point check_point (references ++ [p])
  = if distance_leb d (exact_euclidean check_point p) then ret (i, d)
    else ret (List.length references, exact_euclidean check_point p).
Proof.
  intros Hret.
  destruct references as [| ref refs]; [discriminate Hret |].
  set (references := ref :: refs) in *.
  set (tree := mk_candidates ref refs).
  assert (Hd : d = exact_query tree check_point
               /\ py_min (exact_nearest_indices check_point references d) = ret i).
  { change (exact_nearest_point check_point references)
      with (min_index <- py_min (exact_nearest_indices check_point references
                                   (exact_query tree check_point)) ;;
            ret (min_index, exact_query tree check_point)) in Hret.
    destruct (py_min _) as [e | m] eqn:Hmin; [discriminate Hret |].
    injection Hret as -> <-. auto. }
  destruct Hd as [Hd Hmin].
  set (dp := exact_euclidean check_point p).
  change (exact_nearest_point check_point (references ++ [p]))
    with (min_index <- py_min (exact_nearest_indices check_point (references ++ [p])
                                 (exact_query (mk_candidates ref (refs ++ [p]))
                                    check_point)) ;;
          ret (min_index, exact_query (mk_candidates ref (refs ++ [p])) check_point)).
  assert (Hq : exact_query (mk_candidates ref (refs ++ [p])) check_point
               = distance_min d dp).
  { unfold exact_query. cbn [first_candidate other_candidates]. rewrite fold_left_app.
    cbn [fold_left]. rewrite Hd. reflexivity. }
  rewrite Hq, exact_nearest_indices_app. fold dp. unfold distance_min.
  destruct (distance_leb d dp) eqn:Hleb.
  - assert (Hi : In i (exact_nearest_indices check_point references d)).
    { destruct (exact_nearest_indices check_point references d) as [| k l] eqn:Hl;
        [discriminate Hmin |].
      cbn in Hmin. injection Hmin as <-.
      destruct (fold_nat_min_le l k) as (_ & _ & Hin). exact Hin. }
    assert (Hleast : forall j,
               In j (exact_nearest_indices check_point references d) -> (i <= j)%nat).
    { intros j Hj.
      destruct (py_min_least _ _ Hj) as (m & Hm & _ & Hall).
      rewrite Hmin in Hm. injection Hm as <-. apply Hall, Hj. }
    rewrite (py_min_unique _ i); [reflexivity | |].
    + apply in_or_app. left. exact Hi.
    + intros j Hj. apply in_app_or in Hj as [Hj | Hj]; [apply Hleast, Hj |].
      apply in_exact_nearest_indices in Hi as (r & Hr & _).
      assert (i < List.length references)%nat
        by (apply nth_error_Some; rewrite Hr; discriminate).
      destruct (distance_eqb dp d); [| destruct Hj].
      destruct Hj as [<- | []]. lia.
  - assert (Hnone : exact_nearest_indices check_point references dp = []).
    { destruct (exact_nearest_indices check_point references dp) as [| k l] eqn:Hl;
        [reflexivity | exfalso].
      assert (Hk : In k (exact_nearest_indices check_point references dp))
        by (rewrite Hl; left; reflexivity).
      apply in_exact_nearest_indices in Hk as (r & Hr & Hrd).
      pose proof (exact_query_le check_point tree r (nth_error_In _ _ Hr)) as Hle.
      rewrite <- Hd, Hrd in Hle.
      unfold distance_leb in Hleb. apply Z.leb_gt in Hleb. lia. }
    rewrite Hnone.
    assert (Hrefl : distance_eqb dp dp = true)
      by (apply distance_eqb_eq; reflexivity).
    rewrite Hrefl. reflexivity.
Qed.

(** ** Halving an integer in binary64 *)

Lemma digits2_pos_size (p : positive) : digits2_pos p = Pos.size p.
Proof. induction p as [p IH | p IH |]; cbn; congruence. Qed.

Lemma digits2_pos_bound (p : positive) :
  Z.pos p < 2 ^ 53 -> Z.pos (digits2_pos p) <= 53.
Proof.
  intros Hlt. rewrite digits2_pos_size.
  pose proof (Pos.size_le p) as Hsize.
  apply Pos2Z.pos_le_pos in Hsize. rewrite Pos2Z.inj_pow in Hsize.
  change (Z.pos p~0) with (2 * Z.pos p) in Hsize.
  destruct (Z.le_gt_cases (Z.pos (Pos.size p)) 53) as [Hle | Hgt]; [exact Hle |].
  assert (2 ^ 54 <= 2 ^ Z.pos (Pos.size p)) by (apply Z.pow_le_mono_r; lia).
  change (2 ^ 54) with (2 * 2 ^ 53) in *. lia.
Qed.

Lemma iter_xO_value (m k : positive) :
  Z.pos (Pos.iter xO m k) = Z.pos m * 2 ^ Z.pos k.
Proof.
  induction k as [| k IH] using Pos.peano_ind.
  - cbn. lia.
  - rewrite Pos.iter_succ, Pos2Z.inj_xO, IH, Pos2Z.inj_succ, Z.pow_succ_r; lia.
Qed.

Lemma iter_xO_digits (m k : positive) :
  digits2_pos (Pos.iter xO m k) = (digits2_pos m + k)%positive.
Proof.
  induction k as [| k IH] using Pos.peano_ind.
  - cbn. rewrite Pos.add_1_r. reflexivity.
  - rewrite Pos.iter_succ. cbn [digits2_pos]. rewrite IH. lia.
Qed.

(** A 53-digit mantissa with an exponent in range is already rounded. *)
Lemma binary_round_aux_canonical (sx : bool) (m : positive) (e : Z) :
  Z.pos (digits2_pos m) = 53 -> -1074 <= e <= 971 ->
  binary_round_aux 53 1024 sx (Z.pos m) e loc_Exact = S754_finite sx m e.
Proof.
  intros Hd He.
  assert (Hfexp : fexp 53 1024 (Z.pos (digits2_pos m) + e) - e = 0).
  { unfold fexp, emin. lia. }
  unfold binary_round_aux, shr_fexp. cbn [Zdigits2].
  rewrite Hfexp. cbn [shr shr_record_of_loc shr_m loc_of_shr_record
                      round_nearest_even Zdigits2].
  rewrite Hfexp. cbn [shr shr_record_of_loc shr_m].
  destruct (Z.leb_spec e (1024 - 53)); [reflexivity | lia].
Qed.

(** Below [2^53] the quotient by 2 is a binary64 value: rounding returns a
    float whose value is exactly [m / 2]. *)
Lemma binary_round_half (sx : bool) (m : positive) :
  Z.pos m < 2 ^ 53 ->
  exists (m' : positive) (k : Z),
    binary_round 53 1024 sx m (-1) = S754_finite sx m' (- (k + 1)) /\
    0 <= k /\ Z.pos m' = Z.pos m * 2 ^ k.
Proof.
  intros Hlt. pose proof (digits2_pos_bound m Hlt) as Hd.
  pose proof (Pos2Z.is_pos (digits2_pos m)) as Hd0.
  unfold binary_round, shl_align.
  assert (Hfexp : fexp 53 1024 (Z.pos (digits2_pos m) + -1)
                  = Z.pos (digits2_pos m) - 54).
  { unfold fexp, emin. lia. }
  rewrite Hfexp.
  destruct (Z.pos (digits2_pos m) - 54 - -1) as [| d | d] eqn:Hdiff.
  - exists m, 0. rewrite binary_round_aux_canonical by lia.
    repeat split; lia.
  - lia.
  - exists (Pos.iter xO m d), (Z.pos d).
    rewrite binary_round_aux_canonical.
    + repeat split; [f_equal; lia | lia | apply iter_xO_value].
    + rewrite iter_xO_digits, Pos2Z.inj_add. lia.
    + lia.
Qed.

Lemma int_of_half_float (sx : bool) (m m' : positive) (k : Z) :
  0 <= k -> Z.pos m' = Z.pos m * 2 ^ k ->
  int_of_float (S754_finite sx m' (- (k + 1)))
    = ret (cond_Zopp sx (Z.pos m / 2)).
Proof.
  intros Hk Hm'. cbn [int_of_float]. do 2 f_equal.
  rewrite Z.shiftl_div_pow2 by lia.
  rewrite Hm', Z.opp_involutive, Z.add_1_r, Z.pow_succ_r by lia.
  apply Z.div_mul_cancel_r; [lia |].
  apply Z.pow_nonzero; lia.
Qed.

(** [int(s / 2)] for an integer [s] of magnitude at most [2^53]. *)
Lemma int_truediv_2_exact (s : Z) :
  Z.abs s <= 2 ^ 53 ->
  (half <- truediv_2 s ;; int_of_float half) = ret (Z.quot s 2).
Proof.
  intros Hs.
  destruct (Z.eq_dec (Z.abs s) (2 ^ 53)) as [Hmax | Hne].
  { assert (Hcases : s = 2 ^ 53 \/ s = - 2 ^ 53) by lia.
    destruct Hcases as [-> | ->]; reflexivity. }
  destruct s as [| m | m]; [reflexivity | |].
  - destruct (binary_round_half false m) as (m' & k & Hround & Hk & Hm');
      [lia |].
    unfold truediv_2. cbn [binary_normalize]. rewrite Hround. cbn [bind ret].
    rewrite (int_of_half_float false m m' k Hk Hm'). cbn [cond_Zopp].
    rewrite Z.quot_div_nonneg by lia. reflexivity.
  - destruct (binary_round_half true m) as (m' & k & Hround & Hk & Hm');
      [lia |].
    unfold truediv_2. cbn [binary_normalize]. rewrite Hround. cbn [bind ret].
    rewrite (int_of_half_float true m m' k Hk Hm'). cbn [cond_Zopp].
    change (Z.neg m) with (- Z.pos m).
    rewrite Z.quot_opp_l, Z.quot_div_nonneg by lia. reflexivity.
Qed.

(** C8, as the code has it. For integer points whose coordinate sums have
    magnitude at most [2^53], [get_pxl_midpoint] returns, coordinate by
    coordinate, the mean of the two coordinates truncated toward zero. *)
Theorem get_pxl_midpoint_truncates (point1 point2 : point) :
  Z.abs (fst point1 + fst point2) <= 2 ^ 53 ->
  Z.abs (snd point1 + snd point2) <= 2 ^ 53 ->
  get_pxl_midpoint point1 point2
    = ret (Z.quot (fst point1 + fst point2) 2,
           Z.quot (snd point1 + snd point2) 2).
Proof.
  intros Hx Hy. unfold get_pxl_midpoint.
  pose proof (int_truediv_2_exact _ Hx) as Ex.
  pose proof (int_truediv_2_exact _ Hy) as Ey.
  destruct (truediv_2 (fst point1 + fst point2)) as [ex | x_half];
    [discriminate Ex |].
  cbn [bind] in Ex |- *. rewrite Ex. cbn [bind ret].
  destruct (truediv_2 (snd point1 + snd point2)) as [ey | y_half];
    [discriminate Ey |].
  cbn [bind] in Ey |- *. rewrite Ey. reflexivity.
Qed.

Lemma get_pxl_midpoint_truncates_witness :
  get_pxl_midpoint (3, -3) (4, 0) = ret (3, -1).
Proof.
  apply (get_pxl_midpoint_truncates (3, -3) (4, 0)); cbn; lia.
Defined.

(** C8, as stated, fails: past [2^53] the quotient is rounded before it is
    truncated. The mean of 9007199254740992 and 3 truncates to
    4503599627370497; the function returns 4503599627370498. *)
Lemma get_pxl_midpoint_rounds_large_sum :
  get_pxl_midpoint (9007199254740992, 0) (3, 0)
    <> ret (Z.quot (9007199254740992 + 3) 2, Z.quot (0 + 0) 2).
Proof. vm_compute. discriminate. Qed.

Example get_pxl_midpoint_large_sum_value :
  get_pxl_midpoint (9007199254740992, 0) (3, 0) = ret (4503599627370498, 0).
Proof. vm_compute. reflexivity. Qed.

Example get_pxl_midpoint_overflow :
  get_pxl_midpoint (10 ^ 400, 0) (0, 0) = raise OverflowError.
Proof. vm_compute. reflexivity. Qed.

(** The result of [get_pxl_midpoint] is a function of its arguments. *)
Lemma get_pxl_midpoint_deterministic (point1 point2 : point)
    (r1 r2 : result point) :
  get_pxl_midpoint point1 point2 = r1 ->
  get_pxl_midpoint point1 point2 = r2 -> r1 = r2.
Proof. intros <- <-. reflexivity. Qed.

(** ** Further properties of [get_pxl_midpoint] *)

Lemma get_pxl_midpoint_value (point1 point2 : point) :
  Z.abs (fst point1 + fst point2) <= 2 ^ 53 ->
  Z.abs (snd point1 + snd point2) <= 2 ^ 53 ->
  get_pxl_midpoint point1 point2
    = ret (Z.quot (fst point1 + fst point2) 2,
           Z.quot (snd point1 + snd point2) 2).
Proof.
  intros Hx Hy. unfold get_pxl_midpoint.
  pose proof (int_truediv_2_exact _ Hx) as Ex.
  pose proof (int_truediv_2_exact _ Hy) as Ey.
  destruct (truediv_2 (fst point1 + fst point2)) as [ex | x_half];
    [discriminate Ex |].
  cbn [bind] in Ex |- *. rewrite Ex. cbn [bind ret].
  destruct (truediv_2 (snd point1 + snd point2)) as [ey | y_half];
    [discriminate Ey |].
  cbn [bind] in Ey |- *. rewrite Ey. reflexivity.
Qed.

Lemma quot_2_between (a b : Z) :
  Z.min a b <= Z.quot (a + b) 2 <= Z.max a b /\
  Z.abs (2 * Z.quot (a + b) 2 - (a + b)) <= 1 /\
  Z.abs (2 * Z.quot (a + b) 2) <= Z.abs (a + b).
Proof.
  pose proof (Z.quot_rem' (a + b) 2) as Hqr.
  assert (Hrem : Z.abs (Z.rem (a + b) 2) < 2)
    by (apply Z.rem_bound_abs; lia).
  destruct (Z.le_gt_cases 0 (a + b)) as [Hpos | Hneg].
  - pose proof (Z.rem_nonneg (a + b) 2 ltac:(lia) Hpos). lia.
  - pose proof (Z.rem_nonpos (a + b) 2 ltac:(lia) ltac:(lia)). lia.
Qed.

(** X13. [get_pxl_midpoint] is symmetric in its two points, whatever their
    size: the same value, or the same exception. *)
Theorem get_pxl_midpoint_symmetric (point1 point2 : point) :
  get_pxl_midpoint point1 point2 = get_pxl_midpoint point2 point1.
Proof.
  unfold get_pxl_midpoint.
  rewrite (Z.add_comm (fst point1)), (Z.add_comm (snd point1)). reflexivity.
Qed.

(** X14. For points whose coordinate sums have magnitude at most [2^53], each
    coordinate of the midpoint lies between the two given coordinates, and
    twice the coordinate differs from their sum by at most 1, on the side of
    zero. *)
Theorem get_pxl_midpoint_between (point1 point2 : point) :
  Z.abs (fst point1 + fst point2) <= 2 ^ 53 ->
  Z.abs (snd point1 + snd point2) <= 2 ^ 53 ->
  exists mid : point,
    get_pxl_midpoint point1 point2 = ret mid /\
    Z.min (fst point1) (fst point2) <= fst mid
      <= Z.max (fst point1) (fst point2) /\
    Z.min (snd point1) (snd point2) <= snd mid
      <= Z.max (snd point1) (snd point2) /\
    Z.abs (2 * fst mid - (fst point1 + fst point2)) <= 1 /\
    Z.abs (2 * snd mid - (snd point1 + snd point2)) <= 1 /\
    Z.abs (2 * fst mid) <= Z.abs (fst point1 + fst point2) /\
    Z.abs (2 * snd mid) <= Z.abs (snd point1 + snd point2).
Proof.
  intros Hx Hy. eexists. split; [apply get_pxl_midpoint_value; assumption |].
  cbn [fst snd].
  pose proof (quot_2_between (fst point1) (fst point2)).
  pose proof (quot_2_between (snd point1) (snd point2)).
  intuition idtac.
Qed.

Lemma get_pxl_midpoint_between_witness :
  exists mid : point,
    get_pxl_midpoint (-7, 10) (2, 13) = ret mid /\
    Z.min (-7) 2 <= fst mid <= Z.max (-7) 2 /\
    Z.min 10 13 <= snd mid <= Z.max 10 13 /\
    Z.abs (2 * fst mid - (-7 + 2)) <= 1 /\
    Z.abs (2 * snd mid - (10 + 13)) <= 1 /\
    Z.abs (2 * fst mid) <= Z.abs (-7 + 2) /\
    Z.abs (2 * snd mid) <= Z.abs (10 + 13).
Proof.
  apply (get_pxl_midpoint_between (-7, 10) (2, 13)); cbn; lia.
Defined.

(** X15. The midpoint of a point with itself is that point, for coordinates
    of magnitude at most [2^52]. *)
Theorem get_pxl_midpoint_same (point1 : point) :
  Z.abs (fst point1) <= 2 ^ 52 -> Z.abs (snd point1) <= 2 ^ 52 ->
  get_pxl_midpoint point1 point1 = ret point1.
Proof.
  intros Hx Hy. change (2 ^ 52) with 4503599627370496 in *.
  rewrite get_pxl_midpoint_value
    by (change (2 ^ 53) with 9007199254740992; lia).
  destruct point1 as [x y]. cbn [fst snd].
  replace (x + x) with (x * 2) by lia. replace (y + y) with (y * 2) by lia.
  rewrite !Z.quot_mul by lia. reflexivity.
Qed.

Lemma get_pxl_midpoint_same_witness :
  get_pxl_midpoint (1800, 1050) (1800, 1050) = ret (1800, 1050).
Proof. apply (get_pxl_midpoint_same (1800, 1050)); cbn; lia. Defined.

(** ** Exact binary64 arithmetic on integers and half-integers *)

Lemma iter_pos_eq {A : Type} (f : A -> A) (p : positive) (x : A) :
  SpecFloat.iter_pos f p x = Pos.iter f x p.
Proof.
  revert x. induction p as [p IH | p IH |]; intros x; cbn.
  - rewrite !IH, !Pos.iter_swap. reflexivity.
  - rewrite !IH. reflexivity.
  - reflexivity.
Qed.

Lemma shr_1_exact_iter (a n : positive) :
  Pos.iter shr_1 (Build_shr_record (Z.pos (Pos.iter xO a n)) false false) n
  = Build_shr_record (Z.pos a) false false.
Proof.
  revert a. induction n as [| n IH] using Pos.peano_ind; intros a.
  - reflexivity.
  - rewrite !Pos.iter_succ, <- (Pos.iter_swap n positive xO a), IH.
    reflexivity.
Qed.

Lemma shiftl_value (m : positive) (j : N) :
  Z.pos (Pos.shiftl m j) = Z.pos m * 2 ^ Z.of_N j.
Proof. destruct j as [| j]; cbn; [lia | apply iter_xO_value]. Qed.

Lemma shiftl_digits (m : positive) (j : N) :
  Z.pos (digits2_pos (Pos.shiftl m j)) = Z.pos (digits2_pos m) + Z.of_N j.
Proof.
  destruct j as [| j]; cbn [Pos.shiftl Z.of_N]; [lia |].
  rewrite iter_xO_digits. lia.
Qed.

(** Rounding [m * 2^j] at exponent [E], for a mantissa [m] of at most 53
    digits: the result is the float of mantissa [m * 2^(53 - d)], where [d]
    is the number of digits of [m]. *)
Lemma binary_round_value (sx : bool) (m : positive) (j : N) (E : Z) :
  Z.pos (digits2_pos m) <= 53 ->
  -1074 <= Z.pos (digits2_pos m) + (E + Z.of_N j) - 53 <= 971 ->
  exists Mres : positive,
    binary_round 53 1024 sx (Pos.shiftl m j) E
    = S754_finite sx Mres (Z.pos (digits2_pos m) + (E + Z.of_N j) - 53) /\
    Z.pos Mres = Z.pos m * 2 ^ (53 - Z.pos (digits2_pos m)).
Proof.
  intros Hd Ht.
  set (d := Z.pos (digits2_pos m)) in *.
  set (t := d + (E + Z.of_N j) - 53) in *.
  pose proof (shiftl_value m j) as HMv.
  pose proof (shiftl_digits m j) as HMd. fold d in HMd.
  set (M := Pos.shiftl m j) in *.
  assert (Hd0 : 0 < d) by (unfold d; lia).
  assert (Hfexp : fexp 53 1024 (Z.pos (digits2_pos M) + E) = t).
  { unfold fexp, emin. lia. }
  unfold binary_round, shl_align. rewrite Hfexp.
  destruct (t - E) as [| n | n] eqn:Hdiff.
  - exists M. rewrite binary_round_aux_canonical by lia.
    split; [f_equal; lia |].
    rewrite HMv. f_equal. f_equal. lia.
  - set (j1 := Z.to_N (Z.of_N j - Z.pos n)).
    assert (Hj1 : Z.of_N j1 = 53 - d) by (unfold j1; lia).
    assert (HM : M = Pos.iter xO (Pos.shiftl m j1) n).
    { apply Pos2Z.inj. rewrite iter_xO_value, shiftl_value, HMv.
      rewrite <- Z.mul_assoc, <- Z.pow_add_r by lia. do 2 f_equal. lia. }
    exists (Pos.shiftl m j1). split; [| rewrite shiftl_value, Hj1; reflexivity].
    assert (Hd1 : Z.pos (digits2_pos (Pos.shiftl m j1)) = 53).
    { rewrite shiftl_digits. fold d. lia. }
    assert (Hfexp1 : fexp 53 1024 (Z.pos (digits2_pos (Pos.shiftl m j1)) + t)
                     - t = 0).
    { unfold fexp, emin. lia. }
    unfold binary_round_aux, shr_fexp. cbn [Zdigits2].
    rewrite Hfexp, Hdiff. cbn [shr shr_record_of_loc].
    rewrite iter_pos_eq, HM, shr_1_exact_iter.
    cbn [shr_m loc_of_shr_record round_nearest_even Zdigits2].
    replace (E + Z.pos n) with t by lia.
    rewrite Hfexp1. cbn [shr shr_record_of_loc shr_m].
    destruct (Z.leb_spec t (1024 - 53)); [reflexivity | lia].
  - exists (Pos.iter xO M n).
    rewrite binary_round_aux_canonical.
    + split; [reflexivity |].
      rewrite iter_xO_value, HMv, <- Z.mul_assoc, <- Z.pow_add_r by lia.
      do 2 f_equal. lia.
    + rewrite iter_xO_digits, Pos2Z.inj_add. lia.
    + lia.
Qed.

Lemma digits2_pos_le_53 (N : Z) (m : positive) :
  Z.abs N < 2 ^ 53 -> Z.abs N = Z.pos m -> Z.pos (digits2_pos m) <= 53.
Proof. intros Hlt Habs. apply digits2_pos_bound. lia. Qed.

(** The float of a non-zero [N * 2^e], for [|N| < 2^53] and a small
    exponent. *)
Lemma binary_normalize_finite (N e : Z) :
  N <> 0 -> Z.abs N < 2 ^ 53 -> -1000 <= e <= 0 ->
  exists (M : positive) (k : Z),
    binary_normalize 53 1024 N e false = S754_finite (N <? 0) M (e - k) /\
    0 <= k /\ Z.pos M = Z.abs N * 2 ^ k.
Proof.
  intros Hnz Hlt He.
  destruct N as [| m | m]; [contradiction | |];
    pose proof (digits2_pos_le_53 _ m Hlt eq_refl) as Hd;
    pose proof (Pos2Z.is_pos (digits2_pos m)) as Hd0.
  - destruct (binary_round_value false m 0 e Hd) as (M & Hround & HM);
      [cbn [Z.of_N]; lia |].
    exists M, (53 - Z.pos (digits2_pos m)).
    cbn [binary_normalize Pos.shiftl Z.of_N] in *. rewrite Hround.
    split; [f_equal; lia | split; [lia | exact HM]].
  - destruct (binary_round_value true m 0 e Hd) as (M & Hround & HM);
      [cbn [Z.of_N]; lia |].
    exists M, (53 - Z.pos (digits2_pos m)).
    cbn [binary_normalize Pos.shiftl Z.of_N] in *. rewrite Hround.
    split; [f_equal; lia | split; [lia | exact HM]].
Qed.

(** Rescaling mantissa and exponent does not change the float. *)
Lemma binary_normalize_scaled (a : Z) (j : N) (e : Z) :
  Z.abs a < 2 ^ 53 -> -1000 <= e <= 0 ->
  binary_normalize 53 1024 (a * 2 ^ Z.of_N j) (e - Z.of_N j) false
  = binary_normalize 53 1024 a e false.
Proof.
  intros Hlt He.
  destruct a as [| m | m]; [reflexivity | |];
    pose proof (digits2_pos_le_53 _ m Hlt eq_refl) as Hd;
    pose proof (Pos2Z.is_pos (digits2_pos m)) as Hd0.
  - rewrite <- shiftl_value. cbn [binary_normalize].
    destruct (binary_round_value false m j (e - Z.of_N j) Hd)
      as (M & -> & HM); [lia |].
    destruct (binary_round_value false m 0 e Hd) as (M' & Hr & HM');
      [cbn [Z.of_N]; lia |].
    cbn [Pos.shiftl Z.of_N] in Hr. rewrite Hr.
    assert (M = M') as -> by (apply Pos2Z.inj; lia).
    f_equal. lia.
  - change (Z.neg m) with (- Z.pos m).
    rewrite Z.mul_opp_l, <- shiftl_value. cbn [binary_normalize Z.opp].
    destruct (binary_round_value true m j (e - Z.of_N j) Hd)
      as (M & -> & HM); [lia |].
    destruct (binary_round_value true m 0 e Hd) as (M' & Hr & HM');
      [cbn [Z.of_N]; lia |].
    cbn [Pos.shiftl Z.of_N] in Hr. rewrite Hr.
    assert (M = M') as -> by (apply Pos2Z.inj; lia).
    f_equal. lia.
Qed.

Lemma binary_normalize_opp (a e : Z) :
  a <> 0 ->
  binary_normalize 53 1024 (- a) e false
  = SFopp (binary_normalize 53 1024 a e false).
Proof.
  intros Hnz. destruct a as [| m | m]; [contradiction | |];
    cbn [Z.opp binary_normalize]; unfold binary_round;
    destruct (shl_align m e _) as [mz ez]; unfold binary_round_aux;
    destruct (shr_fexp 53 1024 (Z.pos mz) ez loc_Exact) as [mrs' e'];
    destruct (shr_fexp 53 1024 _ e' loc_Exact) as [mrs'' e''];
    destruct (shr_m mrs''); try reflexivity;
    destruct (e'' <=? 1024 - 53); reflexivity.
Qed.

Lemma SFsub_SFadd_opp (x y : spec_float) :
  SFsub 53 1024 x y = SFadd 53 1024 x (SFopp y).
Proof.
  destruct x as [sx | sx | | sx mx ex], y as [sy | sy | | sy my ey];
    cbn [SFsub SFadd SFopp]; try reflexivity;
    destruct sx, sy; reflexivity.
Qed.

Lemma shl_align_value (m : positive) (e e' : Z) :
  e' <= e -> Z.pos (fst (shl_align m e e')) = Z.pos m * 2 ^ (e - e').
Proof.
  intros Hle. unfold shl_align.
  destruct (e' - e) as [| d | d] eqn:Hdiff; cbn [fst].
  - replace (e - e') with 0 by lia. lia.
  - lia.
  - rewrite iter_xO_value. do 2 f_equal. lia.
Qed.

Lemma cond_Zopp_abs (a c : Z) : cond_Zopp (a <? 0) (Z.abs a * c) = a * c.
Proof.
  destruct a as [| m | m]; cbn [Z.ltb Z.compare cond_Zopp Z.abs].
  - reflexivity.
  - reflexivity.
  - rewrite <- Z.mul_opp_l. reflexivity.
Qed.

(** The sum of an integer and a half-integer, when twice the sum has
    magnitude below [2^53], is computed exactly. *)
Lemma SFadd_int_half (a b : Z) :
  Z.abs a <= 2 ^ 51 -> Z.abs b <= 2 ^ 51 ->
  SFadd 53 1024 (binary_normalize 53 1024 a 0 false)
    (binary_normalize 53 1024 b (-1) false)
  = binary_normalize 53 1024 (2 * a + b) (-1) false.
Proof.
  change (2 ^ 51) with 2251799813685248. intros Ha Hb.
  assert (H53 : 2 ^ 53 = 9007199254740992) by reflexivity.
  destruct (Z.eq_dec a 0) as [-> | Hanz]; [| destruct (Z.eq_dec b 0) as [-> | Hbnz]].
  - destruct (Z.eq_dec b 0) as [-> | Hbnz]; [reflexivity |].
    change (2 * 0 + b) with b.
    destruct (binary_normalize_finite b (-1) Hbnz) as (Mb & kb & -> & _);
      [lia | lia |].
    reflexivity.
  - destruct (binary_normalize_finite a 0 Hanz) as (Ma & ka & Hfa & _);
      [lia | lia |].
    change (binary_normalize 53 1024 0 (-1) false) with (S754_zero false).
    rewrite Hfa. cbn [SFadd]. rewrite <- Hfa.
    rewrite <- (binary_normalize_scaled a 1 0) by lia.
    f_equal. cbn [Z.of_N]. change (2 ^ 1) with 2. lia.
  - destruct (binary_normalize_finite a 0 Hanz) as (Ma & ka & -> & Hka & HMa);
      [lia | lia |].
    destruct (binary_normalize_finite b (-1) Hbnz)
      as (Mb & kb & -> & Hkb & HMb); [lia | lia |].
    cbn [SFadd].
    set (ez := Z.min (0 - ka) (-1 - kb)).
    rewrite !shl_align_value by (unfold ez; lia).
    set (j := Z.to_N (-1 - ez)).
    assert (Hj : Z.of_N j = -1 - ez) by (unfold j, ez; lia).
    assert (E1 : 2 ^ ka * 2 ^ (0 - ka - ez) = 2 * 2 ^ Z.of_N j).
    { rewrite <- Z.pow_add_r, <- Z.pow_succ_r by (unfold ez; lia).
      f_equal. lia. }
    assert (E2 : 2 ^ kb * 2 ^ (-1 - kb - ez) = 2 ^ Z.of_N j).
    { rewrite <- Z.pow_add_r by (unfold ez; lia). f_equal. lia. }
    rewrite HMa, HMb, <- !Z.mul_assoc, E1, E2, !cond_Zopp_abs.
    replace (a * (2 * 2 ^ Z.of_N j) + b * 2 ^ Z.of_N j)
      with ((2 * a + b) * 2 ^ Z.of_N j) by ring.
    replace ez with (-1 - Z.of_N j) by lia.
    apply binary_normalize_scaled; lia.
Qed.

Lemma SFsub_int_half (a b : Z) :
  Z.abs a <= 2 ^ 51 -> Z.abs b <= 2 ^ 51 ->
  SFsub 53 1024 (binary_normalize 53 1024 a 0 false)
    (binary_normalize 53 1024 b (-1) false)
  = binary_normalize 53 1024 (2 * a - b) (-1) false.
Proof.
  intros Ha Hb. rewrite SFsub_SFadd_opp.
  destruct (Z.eq_dec b 0) as [-> | Hbnz].
  - rewrite Z.sub_0_r, <- (Z.add_0_r (2 * a)).
    rewrite <- (SFadd_int_half a 0 Ha) by (cbn; lia).
    destruct (Z.eq_dec a 0) as [-> | Hanz]; [reflexivity |].
    assert (H53 : 2 ^ 53 = 9007199254740992) by reflexivity.
    assert (H51 : 2 ^ 51 = 2251799813685248) by reflexivity.
    destruct (binary_normalize_finite a 0 Hanz) as (Ma & ka & -> & _);
      [lia | lia | reflexivity].
  - rewrite <- binary_normalize_opp by exact Hbnz.
    rewrite SFadd_int_half by lia. f_equal.
Qed.

Lemma truediv_2_value (w : Z) :
  Z.abs w < 2 ^ 53 ->
  truediv_2 w = ret (binary_normalize 53 1024 w (-1) false).
Proof.
  intros Hw. unfold truediv_2.
  destruct (Z.eq_dec w 0) as [-> | Hnz]; [reflexivity |].
  destruct (binary_normalize_finite w (-1) Hnz Hw) as (M & k & -> & _);
    [lia | reflexivity].
Qed.

Lemma float_of_int_value (c : Z) :
  Z.abs c < 2 ^ 53 ->
  float_of_int c = ret (binary_normalize 53 1024 c 0 false).
Proof.
  intros Hc. unfold float_of_int.
  destruct (Z.eq_dec c 0) as [-> | Hnz]; [reflexivity |].
  destruct (binary_normalize_finite c 0 Hnz Hc) as (M & k & -> & _);
    [lia | reflexivity].
Qed.

Lemma int_of_float_half (n : Z) :
  Z.abs n < 2 ^ 53 ->
  int_of_float (binary_normalize 53 1024 n (-1) false) = ret (Z.quot n 2).
Proof.
  intros Hn. pose proof (int_truediv_2_exact n ltac:(lia)) as Hexact.
  rewrite truediv_2_value in Hexact by exact Hn. exact Hexact.
Qed.

(** ** Slices *)

Lemma slice_index_range (n i : Z) : 0 <= n -> 0 <= slice_index n i <= n.
Proof.
  intros Hn. unfold slice_index. destruct (Z.ltb_spec i 0); lia.
Qed.

Lemma slice_length {A : Type} (l : list A) (start stop : Z) :
  Z.of_nat (List.length (slice l start stop))
  = Z.max 0 (slice_index (Z.of_nat (List.length l)) stop
             - slice_index (Z.of_nat (List.length l)) start).
Proof.
  unfold slice.
  pose proof (slice_index_range (Z.of_nat (List.length l)) start ltac:(lia)).
  pose proof (slice_index_range (Z.of_nat (List.length l)) stop ltac:(lia)).
  rewrite length_firstn, length_skipn. lia.
Qed.

Lemma slice_segment {A : Type} (l : list A) (start stop : Z) :
  exists pre post, l = pre ++ slice l start stop ++ post.
Proof.
  unfold slice.
  set (lo := Z.to_nat (slice_index (Z.of_nat (List.length l)) start)).
  set (len := Z.to_nat _).
  exists (firstn lo l), (skipn len (skipn lo l)).
  rewrite (firstn_skipn len), (firstn_skipn lo). reflexivity.
Qed.

Lemma slice_nth_error {A : Type} (l : list A) (start stop k : Z) :
  0 <= start -> 0 <= k -> start + k < stop ->
  nth_error (slice l start stop) (Z.to_nat k)
  = nth_error l (Z.to_nat (start + k)).
Proof.
  intros Hstart Hk Hlt. unfold slice.
  set (n := Z.of_nat (List.length l)).
  assert (Hlo : slice_index n start = Z.min start n)
    by (unfold slice_index; destruct (Z.ltb_spec start 0); lia).
  assert (Hhi : slice_index n stop = Z.min stop n)
    by (unfold slice_index; destruct (Z.ltb_spec stop 0); lia).
  rewrite Hlo, Hhi.
  destruct (Z.lt_ge_cases (start + k) n) as [Hin | Hout].
  - rewrite nth_error_firstn.
    destruct (Nat.ltb_spec (Z.to_nat k) (Z.to_nat (Z.min stop n - Z.min start n)));
      [| lia].
    rewrite nth_error_skipn. f_equal. lia.
  - transitivity (@None A).
    + apply nth_error_None. rewrite length_firstn, length_skipn. lia.
    + symmetry. apply nth_error_None. lia.
Qed.

(** ** [crop_image] *)

(** The window [crop_image] cuts, for a centre and a size of magnitude at
    most [2^51]: each bound is the half-integer bound truncated toward
    zero. *)
Lemma crop_image_value (a : image) (cx cy w h : Z) :
  array_size a <> 0 ->
  Z.abs cx <= 2 ^ 51 -> Z.abs cy <= 2 ^ 51 ->
  Z.abs w <= 2 ^ 51 -> Z.abs h <= 2 ^ 51 ->
  crop_image a (cx, cy) (w, h)
  = ret (map (fun row => slice row (Z.quot (2 * cx - w) 2)
                           (Z.quot (2 * cx + w) 2))
           (slice a (Z.quot (2 * cy - h) 2) (Z.quot (2 * cy + h) 2))).
Proof.
  intros Hsize Hcx Hcy Hw Hh.
  assert (H51 : 2 ^ 51 = 2251799813685248) by reflexivity.
  assert (H53 : 2 ^ 53 = 9007199254740992) by reflexivity.
  unfold crop_image. cbn [fst snd].
  destruct (Z.eqb_spec (array_size a) 0) as [Hzero | _]; [contradiction |].
  unfold int_sub_float, int_add_float.
  rewrite !truediv_2_value, !float_of_int_value by lia. cbn [bind ret].
  rewrite !SFsub_int_half, !SFadd_int_half by assumption.
  rewrite !int_of_float_half by lia. reflexivity.
Qed.

Lemma pixel_crop (a : image) (left right top bottom i j : Z) :
  0 <= left -> 0 <= top -> 0 <= i -> 0 <= j ->
  top + i < bottom -> left + j < right ->
  pixel (map (fun row => slice row left right) (slice a top bottom)) i j
  = pixel a (top + i) (left + j).
Proof.
  intros Hl Ht Hi Hj Hrow Hcol. unfold pixel.
  rewrite nth_error_map, (slice_nth_error a top bottom i) by assumption.
  destruct (nth_error a (Z.to_nat (top + i))) as [row |]; cbn [option_map];
    [| reflexivity].
  apply slice_nth_error; assumption.
Qed.

(** X17. For a non-empty image of shape [(rows, cols)], a size that is not
    negative and a window whose left and top bounds are not negative,
    [crop_image] returns the part of the window that lies in the image: the rows [top .. bottom - 1] and the
    columns [left .. right - 1], clipped at [rows] and [cols], with pixel
    [(i, j)] of the result being pixel [(top + i, left + j)] of the image.
    Here [left = trunc (cx - w / 2)], [right = trunc (cx + w / 2)], and
    likewise [top] and [bottom]. *)
Theorem crop_image_window (a : image) (rows cols cx cy w h : Z) :
  has_shape a rows cols -> array_size a <> 0 ->
  Z.abs cx <= 2 ^ 51 -> Z.abs cy <= 2 ^ 51 ->
  0 <= w <= 2 ^ 51 -> 0 <= h <= 2 ^ 51 ->
  let left := Z.quot (2 * cx - w) 2 in
  let right := Z.quot (2 * cx + w) 2 in
  let top := Z.quot (2 * cy - h) 2 in
  let bottom := Z.quot (2 * cy + h) 2 in
  0 <= left -> 0 <= top ->
  exists out : image,
    crop_image a (cx, cy) (w, h) = ret out /\
    has_shape out (Z.max 0 (Z.min bottom rows - Z.min top rows))
      (Z.max 0 (Z.min right cols - Z.min left cols)) /\
    forall i j : Z,
      0 <= i -> 0 <= j -> top + i < bottom -> left + j < right ->
      pixel out i j = pixel a (top + i) (left + j).
Proof.
  intros [Hrows Hcols] Hsize Hcx Hcy Hw Hh left right top bottom Hleft Htop.
  assert (Hright : left <= right)
    by (apply Z.quot_le_mono; lia).
  assert (Hbottom : top <= bottom)
    by (apply Z.quot_le_mono; lia).
  eexists. split; [apply crop_image_value; lia |].
  fold left right top bottom. split; [split |].
  - rewrite length_map, slice_length, Hrows.
    unfold slice_index.
    destruct (Z.ltb_spec top 0), (Z.ltb_spec bottom 0); lia.
  - apply Forall_map, Forall_forall. intros row Hin.
    assert (Hrow : In row a).
    { destruct (slice_segment a top bottom) as (pre & post & Heq).
      rewrite Heq. apply in_or_app. right. apply in_or_app. left. exact Hin. }
    rewrite Forall_forall in Hcols. specialize (Hcols row Hrow).
    rewrite slice_length, Hcols. unfold slice_index.
    destruct (Z.ltb_spec left 0), (Z.ltb_spec right 0); lia.
  - intros i j Hi Hj Hrow Hcol. apply pixel_crop; assumption.
Qed.

Lemma crop_image_window_witness :
  exists out : image,
    crop_image [[0; 1; 2; 3]; [10; 11; 12; 13]; [20; 21; 22; 23]] (2, 1) (3, 2)
      = ret out /\
    has_shape out (Z.max 0 (Z.min 2 3 - Z.min 0 3))
      (Z.max 0 (Z.min 3 4 - Z.min 0 4)) /\
    forall i j : Z,
      0 <= i -> 0 <= j -> 0 + i < 2 -> 0 + j < 3 ->
      pixel out i j
      = pixel [[0; 1; 2; 3]; [10; 11; 12; 13]; [20; 21; 22; 23]]
          (0 + i) (0 + j).
Proof.
  apply (crop_image_window
           [[0; 1; 2; 3]; [10; 11; 12; 13]; [20; 21; 22; 23]] 3 4 2 1 3 2).
  - split; [reflexivity | repeat constructor].
  - discriminate.
  - cbn; lia.
  - cbn; lia.
  - cbn; lia.
  - cbn; lia.
  - cbn; lia.
  - cbn; lia.
Defined.

Lemma length_zero_nil {A : Type} (l : list A) :
  Z.of_nat (List.length l) = 0 -> l = [].
Proof. destruct l; [reflexivity | cbn [List.length]; lia]. Qed.

(** X18. Near the top or the left border a negative window bound counts
    from the far end of the image. For a non-empty image of shape
    [(rows, cols)], a centre of coordinates of magnitude at most [2^51] and
    a width and a height between 0 and [2^51]: when [top < 0 <= bottom] and
    [bottom <= rows + top] the result has no rows, and when
    [left < 0 <= right] and [right <= cols + left] every row of the result
    is empty. *)
Theorem crop_image_border_wrap (a : image) (rows cols cx cy w h : Z) :
  has_shape a rows cols -> array_size a <> 0 ->
  Z.abs cx <= 2 ^ 51 -> Z.abs cy <= 2 ^ 51 ->
  0 <= w <= 2 ^ 51 -> 0 <= h <= 2 ^ 51 ->
  let left := Z.quot (2 * cx - w) 2 in
  let right := Z.quot (2 * cx + w) 2 in
  let top := Z.quot (2 * cy - h) 2 in
  let bottom := Z.quot (2 * cy + h) 2 in
  exists out : image,
    crop_image a (cx, cy) (w, h) = ret out /\
    (top < 0 <= bottom -> bottom <= rows + top -> out = []) /\
    (left < 0 <= right -> right <= cols + left ->
     Forall (fun row => row = []) out).
Proof.
  intros [Hrows Hcols] Hsize Hcx Hcy Hw Hh left right top bottom.
  eexists. split; [apply crop_image_value; lia |].
  fold left right top bottom. split.
  - intros Htop Hbottom. apply length_zero_nil.
    rewrite length_map, slice_length, Hrows. unfold slice_index.
    destruct (Z.ltb_spec top 0), (Z.ltb_spec bottom 0); lia.
  - intros Hleft Hright. apply Forall_map, Forall_forall. intros row Hin.
    assert (Hrow : In row a).
    { destruct (slice_segment a top bottom) as (pre & post & Heq).
      rewrite Heq. apply in_or_app. right. apply in_or_app. left. exact Hin. }
    rewrite Forall_forall in Hcols. specialize (Hcols row Hrow).
    apply length_zero_nil.
    rewrite slice_length, Hcols. unfold slice_index.
    destruct (Z.ltb_spec left 0), (Z.ltb_spec right 0); lia.
Qed.

Lemma crop_image_border_wrap_witness :
  exists out : image,
    crop_image [[0; 1; 2; 3]; [10; 11; 12; 13]; [20; 21; 22; 23]] (0, 0) (2, 2)
      = ret out /\
    (-1 < 0 <= 1 -> 1 <= 3 + -1 -> out = []) /\
    (-1 < 0 <= 1 -> 1 <= 4 + -1 -> Forall (fun row => row = []) out).
Proof.
  apply (crop_image_border_wrap
           [[0; 1; 2; 3]; [10; 11; 12; 13]; [20; 21; 22; 23]] 3 4 0 0 2 2).
  - split; [reflexivity | repeat constructor].
  - discriminate.
  - cbn; lia.
  - cbn; lia.
  - cbn; lia.
  - cbn; lia.
Defined.

Lemma quot_2_window (c w : Z) :
  0 <= w -> 0 <= 2 * c - w ->
  0 <= Z.quot (2 * c - w) 2 /\
  Z.quot (2 * c + w) 2 - Z.quot (2 * c - w) 2 = w /\
  2 * Z.quot (2 * c + w) 2 <= 2 * c + w.
Proof.
  intros Hw Hlow.
  pose proof (Z.quot_rem' (2 * c - w) 2) as Hlo.
  pose proof (Z.quot_rem' (2 * c + w) 2) as Hhi.
  pose proof (Z.rem_bound_pos (2 * c - w) 2 ltac:(lia) ltac:(lia)).
  pose proof (Z.rem_bound_pos (2 * c + w) 2 ltac:(lia) ltac:(lia)).
  lia.
Qed.

(** X19. A window that lies inside the image is returned whole: for a
    non-empty image of shape [(rows, cols)] and a size [(w, h)] that is not
    negative, when [0 <= cx - w/2], [cx + w/2 <= cols], [0 <= cy - h/2] and
    [cy + h/2 <= rows], the result has shape [(h, w)]. *)
Theorem crop_image_inside_shape (a : image) (rows cols cx cy w h : Z) :
  has_shape a rows cols -> array_size a <> 0 ->
  rows <= 2 ^ 50 -> cols <= 2 ^ 50 ->
  0 <= w -> 0 <= h ->
  0 <= 2 * cx - w -> 2 * cx + w <= 2 * cols ->
  0 <= 2 * cy - h -> 2 * cy + h <= 2 * rows ->
  exists out : image,
    crop_image a (cx, cy) (w, h) = ret out /\ has_shape out h w.
Proof.
  intros [Hrows Hcols] Hsize Hr Hc Hw Hh Hl Hri Ht Hb.
  assert (H50 : 2 ^ 50 = 1125899906842624) by reflexivity.
  assert (H51 : 2 ^ 51 = 2251799813685248) by reflexivity.
  destruct (quot_2_window cx w Hw Hl) as (Hleft & Hwidth & Hright).
  destruct (quot_2_window cy h Hh Ht) as (Htop & Hheight & Hbottom).
  eexists. split; [apply crop_image_value; lia |]. split.
  - rewrite length_map, slice_length, Hrows. unfold slice_index.
    destruct (Z.ltb_spec (Z.quot (2 * cy - h) 2) 0),
             (Z.ltb_spec (Z.quot (2 * cy + h) 2) 0); lia.
  - apply Forall_map, Forall_forall. intros row Hin.
    assert (Hrow : In row a).
    { destruct (slice_segment a (Z.quot (2 * cy - h) 2) (Z.quot (2 * cy + h) 2))
        as (pre & post & Heq).
      rewrite Heq. apply in_or_app. right. apply in_or_app. left. exact Hin. }
    rewrite Forall_forall in Hcols. specialize (Hcols row Hrow).
    rewrite slice_length, Hcols. unfold slice_index.
    destruct (Z.ltb_spec (Z.quot (2 * cx - w) 2) 0),
             (Z.ltb_spec (Z.quot (2 * cx + w) 2) 0); lia.
Qed.

Lemma crop_image_inside_shape_witness :
  exists out : image,
    crop_image [[0; 1; 2; 3]; [10; 11; 12; 13]; [20; 21; 22; 23]] (2, 1) (3, 2)
      = ret out /\ has_shape out 2 3.
Proof.
  apply (crop_image_inside_shape
           [[0; 1; 2; 3]; [10; 11; 12; 13]; [20; 21; 22; 23]] 3 4 2 1 3 2).
  - split; [reflexivity | repeat constructor].
  - discriminate.
  - cbn; lia.
  - cbn; lia.
  - lia.
  - lia.
  - lia.
  - lia.
  - lia.
  - lia.
Defined.

(** ** What the float operations can raise *)

Lemma shr_1_nonneg (mrs : shr_record) :
  0 <= shr_m mrs -> 0 <= shr_m (shr_1 mrs).
Proof.
  destruct mrs as [m r s]. destruct m as [| [p | p |] | p]; cbn; lia.
Qed.

Lemma iter_pos_nonneg (p : positive) (mrs : shr_record) :
  0 <= shr_m mrs -> 0 <= shr_m (SpecFloat.iter_pos shr_1 p mrs).
Proof.
  revert mrs. induction p as [p IH | p IH |]; intros mrs Hm; cbn.
  - apply IH, IH, shr_1_nonneg, Hm.
  - apply IH, IH, Hm.
  - apply shr_1_nonneg, Hm.
Qed.

Lemma shr_fexp_nonneg (m e : Z) (l : location) :
  0 <= m -> 0 <= shr_m (fst (shr_fexp 53 1024 m e l)).
Proof.
  intros Hm. unfold shr_fexp, shr.
  assert (Hrec : 0 <= shr_m (shr_record_of_loc m l))
    by (destruct l as [| []]; exact Hm).
  destruct (fexp 53 1024 (Zdigits2 m + e) - e); cbn [fst];
    [exact Hrec | apply iter_pos_nonneg, Hrec | exact Hrec].
Qed.

Lemma round_nearest_even_nonneg (m : Z) (l : location) :
  0 <= m -> 0 <= round_nearest_even m l.
Proof.
  intros Hm. destruct l as [| []]; cbn; try lia.
  destruct (Z.even m); lia.
Qed.

Lemma binary_round_aux_not_nan (sx : bool) (m e : Z) (l : location) :
  0 <= m -> binary_round_aux 53 1024 sx m e l <> S754_nan.
Proof.
  intros Hm. unfold binary_round_aux.
  pose proof (shr_fexp_nonneg m e l Hm) as H1.
  destruct (shr_fexp 53 1024 m e l) as [mrs' e']. cbn [fst] in H1.
  pose proof (shr_fexp_nonneg _ e' loc_Exact
                (round_nearest_even_nonneg _ (loc_of_shr_record mrs') H1))
    as H2.
  destruct (shr_fexp 53 1024 _ e' loc_Exact) as [mrs'' e'']. cbn [fst] in H2.
  destruct (shr_m mrs'') as [| p | p]; [discriminate | | lia].
  destruct (e'' <=? 1024 - 53); discriminate.
Qed.

Lemma binary_normalize_not_nan (a e : Z) (szero : bool) :
  binary_normalize 53 1024 a e szero <> S754_nan.
Proof.
  destruct a as [| m | m]; cbn [binary_normalize]; [discriminate | |];
    unfold binary_round; destruct (shl_align m e _) as [mz ez];
    apply binary_round_aux_not_nan; lia.
Qed.

(** A float that is a number: a zero or a finite value. *)
Lemma truediv_2_returns (a : Z) (f : spec_float) :
  truediv_2 a = ret f -> f <> S754_nan /\ forall s, f <> S754_infinity s.
Proof.
  unfold truediv_2. pose proof (binary_normalize_not_nan a (-1) false) as Hnan.
  destruct (binary_normalize 53 1024 a (-1) false) as [s | s | | s m e];
    intros [= <-]; split; try discriminate; exact Hnan.
Qed.

Lemma float_of_int_returns (a : Z) (f : spec_float) :
  float_of_int a = ret f -> f <> S754_nan /\ forall s, f <> S754_infinity s.
Proof.
  unfold float_of_int. pose proof (binary_normalize_not_nan a 0 false) as Hnan.
  destruct (binary_normalize 53 1024 a 0 false) as [s | s | | s m e];
    intros [= <-]; split; try discriminate; exact Hnan.
Qed.

Lemma truediv_2_raises (a : Z) (e : exception) :
  truediv_2 a = raise e -> e = OverflowError.
Proof.
  unfold truediv_2.
  destruct (binary_normalize 53 1024 a (-1) false); intros [= <-]; reflexivity.
Qed.

Lemma float_of_int_raises (a : Z) (e : exception) :
  float_of_int a = raise e -> e = OverflowError.
Proof.
  unfold float_of_int.
  destruct (binary_normalize 53 1024 a 0 false); intros [= <-]; reflexivity.
Qed.

Lemma int_of_float_raises (f : spec_float) (e : exception) :
  f <> S754_nan -> int_of_float f = raise e -> e = OverflowError.
Proof.
  intros Hnan. destruct f; cbn; intros [= <-];
    [reflexivity | contradiction].
Qed.

Lemma SFadd_not_nan (x y : spec_float) :
  x <> S754_nan -> (forall s, x <> S754_infinity s) ->
  y <> S754_nan -> (forall s, y <> S754_infinity s) ->
  SFadd 53 1024 x y <> S754_nan.
Proof.
  intros Hx Hxi Hy Hyi.
  destruct x as [sx | sx | | sx mx ex];
    [| exfalso; apply (Hxi sx); reflexivity | contradiction |];
    (destruct y as [sy | sy | | sy my ey];
       [| exfalso; apply (Hyi sy); reflexivity | contradiction |]);
    cbn [SFadd]; try discriminate.
  - destruct sx, sy; discriminate.
  - apply binary_normalize_not_nan.
Qed.

Lemma SFsub_not_nan (x y : spec_float) :
  x <> S754_nan -> (forall s, x <> S754_infinity s) ->
  y <> S754_nan -> (forall s, y <> S754_infinity s) ->
  SFsub 53 1024 x y <> S754_nan.
Proof.
  intros Hx Hxi Hy Hyi. rewrite SFsub_SFadd_opp.
  apply SFadd_not_nan; try assumption.
  - destruct y; [discriminate | discriminate | contradiction | discriminate].
  - intros s. destruct y as [sy | sy | | sy my ey]; try discriminate.
    exfalso. apply (Hyi sy). reflexivity.
Qed.

(** X16. The only exception [get_pxl_midpoint] raises is [OverflowError]
    (from the division, when a coordinate sum is beyond the float range). *)
Theorem get_pxl_midpoint_raises_overflow (point1 point2 : point)
    (e : exception) :
  get_pxl_midpoint point1 point2 = raise e -> e = OverflowError.
Proof.
  unfold get_pxl_midpoint.
  destruct (truediv_2 (fst point1 + fst point2)) as [e1 | x_half] eqn:Hx;
    cbn [bind]; [intros [= <-]; apply (truediv_2_raises _ _ Hx) |].
  destruct (truediv_2_returns _ _ Hx) as [Hxn _].
  destruct (int_of_float x_half) as [e2 | x_point] eqn:Hxi;
    cbn [bind]; [intros [= <-]; apply (int_of_float_raises _ _ Hxn Hxi) |].
  destruct (truediv_2 (snd point1 + snd point2)) as [e3 | y_half] eqn:Hy;
    cbn [bind]; [intros [= <-]; apply (truediv_2_raises _ _ Hy) |].
  destruct (truediv_2_returns _ _ Hy) as [Hyn _].
  destruct (int_of_float y_half) as [e4 | y_point] eqn:Hyi;
    cbn [bind]; [intros [= <-]; apply (int_of_float_raises _ _ Hyn Hyi) |].
  discriminate.
Qed.

Lemma get_pxl_midpoint_raises_overflow_witness :
  get_pxl_midpoint (10 ^ 400, 0) (0, 0) = raise OverflowError /\
  OverflowError = OverflowError.
Proof.
  assert (Hraise : get_pxl_midpoint (10 ^ 400, 0) (0, 0) = raise OverflowError)
    by (vm_compute; reflexivity).
  split; [exact Hraise |].
  exact (get_pxl_midpoint_raises_overflow (10 ^ 400, 0) (0, 0) OverflowError
           Hraise).
Defined.

Section WindowBound.
Context {B : Type}.
Variables (c w : Z) (k : Z -> result B).

Lemma low_bound_raises (e : exception) :
  (forall v, k v = raise e -> e = OverflowError) ->
  (half <- truediv_2 w ;; f <- int_sub_float c half ;;
   v <- int_of_float f ;; k v) = raise e ->
  e = OverflowError.
Proof.
  intros Hk.
  destruct (truediv_2 w) as [e1 | half] eqn:Hhalf; cbn [bind];
    [intros [= <-]; apply (truediv_2_raises _ _ Hhalf) |].
  destruct (truediv_2_returns _ _ Hhalf) as [Hn Hi].
  unfold int_sub_float.
  destruct (float_of_int c) as [e2 | cf] eqn:Hcf; cbn [bind ret];
    [intros [= <-]; apply (float_of_int_raises _ _ Hcf) |].
  destruct (float_of_int_returns _ _ Hcf) as [Hcn Hci].
  pose proof (SFsub_not_nan cf half Hcn Hci Hn Hi) as Hsub.
  destruct (int_of_float (SFsub 53 1024 cf half)) as [e3 | v] eqn:Hv;
    cbn [bind]; [intros [= <-]; apply (int_of_float_raises _ _ Hsub Hv) |].
  apply Hk.
Qed.

Lemma high_bound_raises (e : exception) :
  (forall v, k v = raise e -> e = OverflowError) ->
  (half <- truediv_2 w ;; f <- int_add_float c half ;;
   v <- int_of_float f ;; k v) = raise e ->
  e = OverflowError.
Proof.
  intros Hk.
  destruct (truediv_2 w) as [e1 | half] eqn:Hhalf; cbn [bind];
    [intros [= <-]; apply (truediv_2_raises _ _ Hhalf) |].
  destruct (truediv_2_returns _ _ Hhalf) as [Hn Hi].
  unfold int_add_float.
  destruct (float_of_int c) as [e2 | cf] eqn:Hcf; cbn [bind ret];
    [intros [= <-]; apply (float_of_int_raises _ _ Hcf) |].
  destruct (float_of_int_returns _ _ Hcf) as [Hcn Hci].
  pose proof (SFadd_not_nan cf half Hcn Hci Hn Hi) as Hadd.
  destruct (int_of_float (SFadd 53 1024 cf half)) as [e3 | v] eqn:Hv;
    cbn [bind]; [intros [= <-]; apply (int_of_float_raises _ _ Hadd Hv) |].
  apply Hk.
Qed.

Lemma low_bound_returns (out : B) :
  (half <- truediv_2 w ;; f <- int_sub_float c half ;;
   v <- int_of_float f ;; k v) = ret out ->
  exists v, k v = ret out.
Proof.
  destruct (truediv_2 w) as [e1 | half]; cbn [bind]; [discriminate |].
  destruct (int_sub_float c half) as [e2 | f]; cbn [bind]; [discriminate |].
  destruct (int_of_float f) as [e3 | v]; cbn [bind]; [discriminate |].
  intros Hk. exists v. exact Hk.
Qed.

Lemma high_bound_returns (out : B) :
  (half <- truediv_2 w ;; f <- int_add_float c half ;;
   v <- int_of_float f ;; k v) = ret out ->
  exists v, k v = ret out.
Proof.
  destruct (truediv_2 w) as [e1 | half]; cbn [bind]; [discriminate |].
  destruct (int_add_float c half) as [e2 | f]; cbn [bind]; [discriminate |].
  destruct (int_of_float f) as [e3 | v]; cbn [bind]; [discriminate |].
  intros Hk. exists v. exact Hk.
Qed.
End WindowBound.

Lemma crop_image_returns (a : image) (roi_center : point)
    (roi_size_wh : Z * Z) (out : image) :
  crop_image a roi_center roi_size_wh = ret out ->
  out = [] \/
  exists left right top bottom : Z,
    out = map (fun row => slice row left right) (slice a top bottom).
Proof.
  destruct roi_size_wh as [w h]. unfold crop_image.
  destruct (array_size a =? 0); [intros [= <-]; left; reflexivity |].
  intros H. right.
  apply low_bound_returns in H as (left & H).
  apply low_bound_returns in H as (top & H).
  apply high_bound_returns in H as (right & H).
  apply high_bound_returns in H as (bottom & H).
  injection H as <-. exists left, right, top, bottom. reflexivity.
Qed.

(** X20. Whatever the centre and the size, what [crop_image] returns is cut
    out of the image: it has no more rows than the image, and each of its
    rows is a run of consecutive pixels of a row of the image. *)
Theorem crop_image_sub_image (a : image) (roi_center : point)
    (roi_size_wh : Z * Z) (out : image) :
  crop_image a roi_center roi_size_wh = ret out ->
  (List.length out <= List.length a)%nat /\
  forall row, In row out ->
    exists row' pre post, In row' a /\ row' = pre ++ row ++ post.
Proof.
  intros Hret.
  destruct (crop_image_returns _ _ _ _ Hret)
    as [-> | (left & right & top & bottom & ->)].
  - split; [cbn; lia | intros row []].
  - destruct (slice_segment a top bottom) as (pre & post & Heq). split.
    + rewrite length_map. rewrite Heq at 2. rewrite !length_app. lia.
    + intros row Hin. apply in_map_iff in Hin as (row' & <- & Hin).
      destruct (slice_segment row' left right) as (rpre & rpost & Hrow).
      exists row', rpre, rpost. split; [| exact Hrow].
      rewrite Heq. apply in_or_app. right. apply in_or_app. left. exact Hin.
Qed.

Lemma crop_image_sub_image_witness :
  Nat.le (List.length [[12; 13]; [22; 23]])
    (List.length [[0; 1; 2; 3]; [10; 11; 12; 13]; [20; 21; 22; 23]]) /\
  forall row, In row [[12; 13]; [22; 23]] ->
    exists row' pre post,
      In row' [[0; 1; 2; 3]; [10; 11; 12; 13]; [20; 21; 22; 23]] /\
      row' = pre ++ row ++ post.
Proof.
  apply (crop_image_sub_image
           [[0; 1; 2; 3]; [10; 11; 12; 13]; [20; 21; 22; 23]] (3, 2) (2, 2)).
  vm_compute. reflexivity.
Defined.

(** X21. The only exception [crop_image] raises is [OverflowError]. *)
Theorem crop_image_raises_overflow (a : image) (roi_center : point)
    (roi_size_wh : Z * Z) (e : exception) :
  crop_image a roi_center roi_size_wh = raise e -> e = OverflowError.
Proof.
  destruct roi_size_wh as [w h]. unfold crop_image.
  destruct (array_size a =? 0); [discriminate |].
  apply low_bound_raises. intros left.
  apply low_bound_raises. intros top.
  apply high_bound_raises. intros right.
  apply high_bound_raises. intros bottom.
  discriminate.
Qed.

Lemma crop_image_raises_overflow_witness :
  crop_image [[0; 1]; [2; 3]] (0, 0) (10 ^ 400, 2) = raise OverflowError /\
  OverflowError = OverflowError.
Proof.
  assert (Hraise : crop_image [[0; 1]; [2; 3]] (0, 0) (10 ^ 400, 2)
                   = raise OverflowError) by (vm_compute; reflexivity).
  split; [exact Hraise |].
  exact (crop_image_raises_overflow _ _ _ _ Hraise).
Defined.

(* ------------------------------------------------------------------ *)
(** * [get_nearest_point] in binary64 *)

(** ** Integers in binary64 *)

Lemma digits2_pos_spec (p : positive) :
  2 ^ (Z.pos (digits2_pos p) - 1) <= Z.pos p < 2 ^ Z.pos (digits2_pos p).
Proof.
  rewrite digits2_pos_size. split.
  - pose proof (Pos.size_le p) as Hle.
    apply Pos2Z.pos_le_pos in Hle. rewrite Pos2Z.inj_pow in Hle.
    change (Z.pos p~0) with (2 * Z.pos p) in Hle.
    replace (Z.pos (Pos.size p)) with (Z.succ (Z.pos (Pos.size p) - 1)) in Hle
      by lia.
    rewrite Z.pow_succ_r in Hle by lia. lia.
  - pose proof (Pos.size_gt p) as Hgt.
    apply Pos2Z.pos_lt_pos in Hgt. rewrite Pos2Z.inj_pow in Hgt. exact Hgt.
Qed.

Lemma digits2_pos_unique (p : positive) (d : Z) :
  2 ^ (d - 1) <= Z.pos p < 2 ^ d -> Z.pos (digits2_pos p) = d.
Proof.
  intros [Hlo Hhi]. pose proof (digits2_pos_spec p) as [Hlo' Hhi'].
  set (d' := Z.pos (digits2_pos p)) in *.
  assert (0 < d) by (destruct (Z.lt_ge_cases 0 d) as [H | H]; [exact H |];
    rewrite (Z.pow_neg_r 2 (d - 1)) in Hlo by lia;
    destruct (Z.eq_dec d 0) as [-> | Hne];
      [cbn in Hhi; lia | rewrite (Z.pow_neg_r 2 d) in Hhi by lia; lia]).
  destruct (Z.lt_trichotomy d' d) as [Hlt | [Heq | Hgt]]; [| exact Heq |].
  - assert (2 ^ d' <= 2 ^ (d - 1)) by (apply Z.pow_le_mono_r; lia). lia.
  - assert (2 ^ d <= 2 ^ (d' - 1)) by (apply Z.pow_le_mono_r; lia). lia.
Qed.

(** The float of a positive integer below [2^53]: its mantissa is the
    integer shifted to 53 digits. *)
Lemma float_of_int64_pos (m : positive) :
  Z.pos m < 2 ^ 53 ->
  exists M : positive,
    float_of_int64 (Z.pos m)
    = S754_finite false M (Z.pos (digits2_pos m) - 53) /\
    Z.pos M = Z.pos m * 2 ^ (53 - Z.pos (digits2_pos m)) /\
    Z.pos (digits2_pos M) = 53.
Proof.
  intros Hlt. pose proof (digits2_pos_bound m Hlt) as Hd.
  pose proof (Pos2Z.is_pos (digits2_pos m)) as Hd0.
  destruct (binary_round_value false m 0 0 Hd) as (M & Hround & HM);
    [cbn [Z.of_N]; lia |].
  exists M. cbn [Pos.shiftl Z.of_N] in Hround.
  unfold float_of_int64. cbn [binary_normalize]. rewrite Hround.
  split; [f_equal; lia | split; [exact HM |]].
  apply digits2_pos_unique. rewrite HM.
  pose proof (digits2_pos_spec m) as [Hlo Hhi].
  set (d := Z.pos (digits2_pos m)) in *.
  assert (E52 : 2 ^ (53 - 1) = 2 ^ (d - 1) * 2 ^ (53 - d))
    by (rewrite <- Z.pow_add_r by lia; f_equal; lia).
  assert (E53 : 2 ^ 53 = 2 ^ d * 2 ^ (53 - d))
    by (rewrite <- Z.pow_add_r by lia; f_equal; lia).
  rewrite E52, E53.
  assert (0 < 2 ^ (53 - d)) by (apply Z.pow_pos_nonneg; lia).
  split.
  - apply Z.mul_le_mono_nonneg_r; lia.
  - apply Z.mul_lt_mono_pos_r; lia.
Qed.

Lemma float_of_int64_finite (a : Z) :
  a <> 0 -> Z.abs a < 2 ^ 53 ->
  exists (M : positive) (k : Z),
    float_of_int64 a = S754_finite (a <? 0) M (- k) /\
    0 <= k <= 52 /\ Z.pos M = Z.abs a * 2 ^ k /\
    Z.pos (digits2_pos M) = 53.
Proof.
  intros Hnz Hlt. destruct a as [| m | m]; [contradiction | |].
  - destruct (float_of_int64_pos m Hlt) as (M & Hf & HM & Hd).
    pose proof (digits2_pos_bound m Hlt). pose proof (Pos2Z.is_pos (digits2_pos m)).
    exists M, (53 - Z.pos (digits2_pos m)). rewrite Hf.
    split; [f_equal; lia | split; [lia | split; [exact HM | exact Hd]]].
  - destruct (float_of_int64_pos m Hlt) as (M & Hf & HM & Hd).
    pose proof (digits2_pos_bound m Hlt). pose proof (Pos2Z.is_pos (digits2_pos m)).
    exists M, (53 - Z.pos (digits2_pos m)).
    change (Z.neg m) with (- Z.pos m). unfold float_of_int64.
    rewrite binary_normalize_opp by lia.
    unfold float_of_int64 in Hf. rewrite Hf. cbn [SFopp negb].
    split; [f_equal; lia | split; [lia | split; [exact HM | exact Hd]]].
Qed.

Lemma float_of_int64_compare (a b : Z) :
  0 <= a < 2 ^ 53 -> 0 <= b < 2 ^ 53 ->
  SFcompare (float_of_int64 a) (float_of_int64 b) = Some (a ?= b).
Proof.
  intros Ha Hb.
  destruct a as [| ma | ma], b as [| mb | mb]; try lia; try reflexivity.
  { destruct (float_of_int64_pos mb) as (Mb & -> & _); [lia | reflexivity]. }
  { destruct (float_of_int64_pos ma) as (Ma & -> & _); [lia | reflexivity]. }
  destruct (float_of_int64_pos ma) as (Ma & -> & HMa & _); [lia |].
  destruct (float_of_int64_pos mb) as (Mb & -> & HMb & _); [lia |].
  pose proof (digits2_pos_spec ma) as [Hlo_a Hhi_a].
  pose proof (digits2_pos_spec mb) as [Hlo_b Hhi_b].
  set (da := Z.pos (digits2_pos ma)) in *.
  set (db := Z.pos (digits2_pos mb)) in *.
  cbn [SFcompare]. f_equal.
  destruct (Z.compare_spec (da - 53) (db - 53)) as [Heq | Hlt | Hgt].
  - assert (da = db) as Hd by lia. rewrite Hd in HMa.
    change (Pos.compare_cont Eq Ma Mb) with (Z.pos Ma ?= Z.pos Mb).
    rewrite HMa, HMb. symmetry. apply Zmult_compare_compat_r.
    apply Z.lt_gt, Z.pow_pos_nonneg; [lia |].
    pose proof (digits2_pos_bound mb ltac:(lia)). lia.
  - symmetry. apply Z.compare_lt_iff.
    assert (2 ^ da <= 2 ^ (db - 1)) by (apply Z.pow_le_mono_r; lia). lia.
  - symmetry. apply Z.compare_gt_iff.
    assert (2 ^ db <= 2 ^ (da - 1)) by (apply Z.pow_le_mono_r; lia). lia.
Qed.

Lemma float_min_int64 (a b : Z) :
  0 <= a < 2 ^ 53 -> 0 <= b < 2 ^ 53 ->
  float_min (float_of_int64 a) (float_of_int64 b)
  = float_of_int64 (if a <=? b then a else b).
Proof.
  intros Ha Hb. unfold float_min, SFleb.
  rewrite (float_of_int64_compare a b Ha Hb). unfold Z.leb.
  destruct (a ?= b); reflexivity.
Qed.

Lemma float_of_int64_twice (a : Z) :
  Z.abs a < 2 ^ 53 ->
  binary_normalize 53 1024 (2 * a) (-1) false = float_of_int64 a.
Proof.
  intros Ha. unfold float_of_int64.
  rewrite <- (binary_normalize_scaled a 1 0) by lia.
  f_equal. cbn [Z.of_N]. change (2 ^ 1) with 2. lia.
Qed.

(** Sums and differences of integers are exact as long as they stay far
    below [2^53]. *)
Lemma SFadd_int64 (a b : Z) :
  Z.abs a <= 2 ^ 50 -> Z.abs b <= 2 ^ 50 ->
  SFadd 53 1024 (float_of_int64 a) (float_of_int64 b) = float_of_int64 (a + b).
Proof.
  change (2 ^ 50) with 1125899906842624. intros Ha Hb.
  assert (H53 : 2 ^ 53 = 9007199254740992) by reflexivity.
  assert (H51 : 2 ^ 51 = 2251799813685248) by reflexivity.
  rewrite <- (float_of_int64_twice b), <- (float_of_int64_twice (a + b)) by lia.
  unfold float_of_int64. rewrite SFadd_int_half by lia. f_equal. lia.
Qed.

Lemma SFsub_int64 (a b : Z) :
  Z.abs a <= 2 ^ 50 -> Z.abs b <= 2 ^ 50 ->
  SFsub 53 1024 (float_of_int64 a) (float_of_int64 b) = float_of_int64 (a - b).
Proof.
  change (2 ^ 50) with 1125899906842624. intros Ha Hb.
  assert (H53 : 2 ^ 53 = 9007199254740992) by reflexivity.
  assert (H51 : 2 ^ 51 = 2251799813685248) by reflexivity.
  rewrite <- (float_of_int64_twice b), <- (float_of_int64_twice (a - b)) by lia.
  unfold float_of_int64. rewrite SFsub_int_half by lia. f_equal. lia.
Qed.

(** A mantissa of at least 53 digits is rounded as it is, without a shift
    to the left. *)
Lemma binary_round_long (sx : bool) (M : positive) (E : Z) :
  2 ^ 52 <= Z.pos M ->
  binary_round 53 1024 sx M E
  = binary_round_aux 53 1024 sx (Z.pos M) E loc_Exact.
Proof.
  intros HM. pose proof (digits2_pos_spec M) as [_ Hhi].
  assert (Hd : 52 < Z.pos (digits2_pos M)).
  { destruct (Z.lt_ge_cases 52 (Z.pos (digits2_pos M))) as [H | H]; [exact H |].
    assert (2 ^ Z.pos (digits2_pos M) <= 2 ^ 52)
      by (apply Z.pow_le_mono_r; lia).
    lia. }
  unfold binary_round, shl_align.
  destruct (fexp 53 1024 (Z.pos (digits2_pos M) + E) - E) as [| d | d] eqn:Hdiff;
    try reflexivity.
  unfold fexp, emin in Hdiff. lia.
Qed.

Lemma SFmul_square_int64 (d : Z) :
  Z.abs d <= 2 ^ 26 ->
  SFmul 53 1024 (float_of_int64 d) (float_of_int64 d) = float_of_int64 (d * d).
Proof.
  change (2 ^ 26) with 67108864. intros Hd.
  assert (H53 : 2 ^ 53 = 9007199254740992) by reflexivity.
  destruct (Z.eq_dec d 0) as [-> | Hnz]; [reflexivity |].
  destruct (float_of_int64_finite d Hnz) as (M & k & -> & Hk & HM & HdM);
    [lia |].
  cbn [SFmul]. rewrite xorb_nilpotent.
  pose proof (digits2_pos_spec M) as [HMlo _]. rewrite HdM in HMlo.
  rewrite <- binary_round_long
    by (rewrite Pos2Z.inj_mul; change (2 ^ (53 - 1)) with 4503599627370496 in HMlo;
        change (2 ^ 52) with 4503599627370496; nia).
  unfold float_of_int64.
  rewrite <- (binary_normalize_scaled (d * d) (Z.to_N (2 * k)) 0) by nia.
  rewrite Z2N.id by lia.
  assert (Hsq : d * d * 2 ^ (2 * k) = Z.pos (M * M)).
  { rewrite Pos2Z.inj_mul, HM.
    replace (2 * k) with (k + k) by lia. rewrite Z.pow_add_r by lia.
    replace (d * d) with (Z.abs d * Z.abs d) by lia. ring. }
  rewrite Hsq. cbn [binary_normalize]. f_equal. lia.
Qed.

Lemma SFfma_square_int64 (d c : Z) :
  Z.abs d <= 2 ^ 26 -> 0 <= c -> d * d + c < 2 ^ 53 ->
  SFfma (float_of_int64 d) (float_of_int64 d) (float_of_int64 c)
  = float_of_int64 (d * d + c).
Proof.
  change (2 ^ 26) with 67108864. intros Hd Hc Hsum.
  assert (H53 : 2 ^ 53 = 9007199254740992) by reflexivity.
  destruct (Z.eq_dec d 0) as [-> | Hdnz].
  { change (float_of_int64 0) with (S754_zero false). cbn [SFfma SFmul xorb].
    change (0 * 0 + c) with c.
    destruct (Z.eq_dec c 0) as [-> | Hcnz]; [reflexivity |].
    destruct (float_of_int64_finite c Hcnz) as (Mc & kc & -> & _); [lia |].
    reflexivity. }
  destruct (Z.eq_dec c 0) as [-> | Hcnz].
  { rewrite Z.add_0_r, <- SFmul_square_int64 by (cbn; lia).
    destruct (float_of_int64_finite d Hdnz) as (M & k & -> & _); [lia |].
    reflexivity. }
  destruct (float_of_int64_finite d Hdnz) as (M & k & -> & Hk & HM & _);
    [lia |].
  destruct (float_of_int64_finite c Hcnz) as (Mc & kc & -> & Hkc & HMc & _);
    [lia |].
  cbn [SFfma]. rewrite xorb_nilpotent.
  replace (c <? 0) with false by (symmetry; apply Z.ltb_ge; lia).
  cbn [cond_Zopp].
  set (e := Z.min (- k + - k) (- kc)).
  rewrite !shl_align_value by (unfold e; lia).
  set (j := Z.to_N (- e)).
  assert (Hj : Z.of_N j = - e) by (unfold j, e; lia).
  assert (E1 : Z.pos (M * M) * 2 ^ (- k + - k - e) = d * d * 2 ^ Z.of_N j).
  { rewrite Pos2Z.inj_mul, HM, Hj.
    replace (d * d) with (Z.abs d * Z.abs d) by lia.
    replace (- e) with (k + k + (- k + - k - e)) by lia.
    rewrite !Z.pow_add_r by (unfold e; lia). ring. }
  assert (E2 : Z.pos Mc * 2 ^ (- kc - e) = c * 2 ^ Z.of_N j).
  { rewrite HMc, Hj. replace (Z.abs c) with c by lia.
    replace (- e) with (kc + (- kc - e)) by lia.
    rewrite Z.pow_add_r by (unfold e; lia). ring. }
  rewrite E1, E2, <- Z.mul_add_distr_r.
  replace e with (0 - Z.of_N j) by lia.
  apply binary_normalize_scaled; lia.
Qed.

Lemma wrap_int64_small (z : Z) : - 2 ^ 63 <= z < 2 ^ 63 -> wrap_int64 z = z.
Proof.
  intros Hz. unfold wrap_int64.
  rewrite Z.mod_small; [lia |].
  change (2 ^ 64) with (2 * 2 ^ 63). lia.
Qed.

(** ** Distances between pixel coordinates *)

Lemma small_point_difference (u v : point) :
  small_point u -> small_point v ->
  Z.abs (fst u - fst v) <= 2 ^ 25 /\ Z.abs (snd u - snd v) <= 2 ^ 25.
Proof.
  unfold small_point. change (2 ^ 24) with 16777216.
  change (2 ^ 25) with 33554432. lia.
Qed.

Lemma small_point_radicand (u v : point) :
  small_point u -> small_point v ->
  0 <= radicand (exact_euclidean u v) <= 2 ^ 51.
Proof.
  intros Hu Hv. destruct (small_point_difference u v Hu Hv) as [Hx Hy].
  unfold exact_euclidean. cbn [radicand].
  change (2 ^ 25) with 33554432 in *. change (2 ^ 51) with 2251799813685248.
  revert Hx Hy. generalize (fst u - fst v) (snd u - snd v).
  intros a b Ha Hb. nia.
Qed.

(** The squared distance of the k-d tree between two pixel coordinates is
    the exact integer. *)
Lemma sqeuclidean_distance_small (u v : point) :
  small_point u -> small_point v ->
  sqeuclidean_distance_double (to_float64 u) (to_float64 v)
  = float_of_int64 (radicand (exact_euclidean u v)).
Proof.
  intros Hu Hv. destruct (small_point_difference u v Hu Hv) as [Hx Hy].
  unfold small_point in Hu, Hv.
  change (2 ^ 24) with 16777216 in *. change (2 ^ 25) with 33554432 in *.
  assert (H50 : 2 ^ 50 = 1125899906842624) by reflexivity.
  assert (H26 : 2 ^ 26 = 67108864) by reflexivity.
  unfold sqeuclidean_distance_double, exact_euclidean, to_float64.
  cbn [fst snd radicand].
  rewrite !SFsub_int64 by lia.
  rewrite !SFmul_square_int64 by lia.
  change (S754_zero false) with (float_of_int64 0).
  rewrite !SFadd_int64 by nia.
  f_equal. ring.
Qed.

(** [euclidean] between two pixel coordinates is the float nearest to the
    exact distance. *)
Lemma euclidean_small (u v : point) :
  small_point u -> small_point v ->
  euclidean u v = distance_float (exact_euclidean u v).
Proof.
  intros Hu Hv. destruct (small_point_difference u v Hu Hv) as [Hx Hy].
  change (2 ^ 25) with 33554432 in *.
  assert (H53 : 2 ^ 53 = 9007199254740992) by reflexivity.
  assert (H26 : 2 ^ 26 = 67108864) by reflexivity.
  assert (H63 : 2 ^ 63 = 9223372036854775808) by reflexivity.
  unfold euclidean, distance_float, exact_euclidean. cbn [radicand].
  rewrite !wrap_int64_small by lia.
  cbn [map fold_left].
  change (S754_zero false) with (float_of_int64 0).
  rewrite !SFfma_square_int64 by nia.
  do 2 f_equal. ring.
Qed.

(** ** The rounded square root *)

(** Rounding a 53-digit mantissa with a location: no shift, and the
    mantissa moves up by at most one. *)
Lemma binary_round_aux_53 (q : positive) (e : Z) (l : location) :
  2 ^ 52 <= Z.pos q -> Z.pos q + 1 < 2 ^ 53 -> -1074 <= e <= 971 ->
  exists q' : positive,
    binary_round_aux 53 1024 false (Z.pos q) e l = S754_finite false q' e /\
    Z.pos q' = round_nearest_even (Z.pos q) l.
Proof.
  intros Hlo Hhi He.
  assert (Hround : exists q' : positive,
             Z.pos q' = round_nearest_even (Z.pos q) l /\
             2 ^ 52 <= Z.pos q' < 2 ^ 53).
  { destruct l as [| []]; cbn [round_nearest_even].
    - exists q. lia.
    - destruct (Z.even (Z.pos q)); [exists q | exists (q + 1)%positive]; lia.
    - exists q. lia.
    - exists (q + 1)%positive. lia. }
  destruct Hround as (q' & Hq' & Hq'lo & Hq'hi). exists q'.
  split; [| exact Hq'].
  assert (Hd : Z.pos (digits2_pos q) = 53)
    by (apply digits2_pos_unique; change (53 - 1) with 52; lia).
  assert (Hd' : Z.pos (digits2_pos q') = 53)
    by (apply digits2_pos_unique; change (53 - 1) with 52; lia).
  assert (Hfexp : fexp 53 1024 (53 + e) - e = 0) by (unfold fexp, emin; lia).
  unfold binary_round_aux, shr_fexp. cbn [Zdigits2].
  rewrite Hd, Hfexp. cbn [shr].
  assert (Hloc : loc_of_shr_record (shr_record_of_loc (Z.pos q) l) = l)
    by (destruct l as [| []]; reflexivity).
  assert (Hm : shr_m (shr_record_of_loc (Z.pos q) l) = Z.pos q)
    by (destruct l as [| []]; reflexivity).
  rewrite Hloc, Hm, <- Hq'. cbn [Zdigits2]. rewrite Hd', Hfexp.
  cbn [shr shr_record_of_loc shr_m].
  destruct (Z.leb_spec e (1024 - 53)); [reflexivity | lia].
Qed.

(** The square root of the float of an integer [n] below [2^52]: a float of
    mantissa [q] and exponent [h - 53], where [4^(h-1) <= n < 4^h] and [q] is
    the integer nearest to the square root of [n * 2^(106 - 2h)]. *)
Lemma SFsqrt_int64_spec (n : Z) :
  1 <= n < 2 ^ 52 ->
  exists (q : positive) (h : Z),
    SFsqrt 53 1024 (float_of_int64 n) = S754_finite false q (h - 53) /\
    1 <= h <= 26 /\
    2 ^ (2 * h - 2) <= n < 2 ^ (2 * h) /\
    Z.pos q < 2 ^ 53 /\
    Z.pos q * Z.pos q - Z.pos q < n * 2 ^ (106 - 2 * h)
      <= Z.pos q * Z.pos q + Z.pos q.
Proof.
  intros Hn. destruct n as [| m | m]; try lia.
  assert (H52 : 2 ^ 52 = 4503599627370496) by reflexivity.
  assert (H53 : 2 ^ 53 = 9007199254740992) by reflexivity.
  destruct (float_of_int64_pos m) as (M & -> & HM & HdM); [lia |].
  pose proof (digits2_pos_spec m) as [Hlo Hhi].
  set (d := Z.pos (digits2_pos m)) in *.
  assert (Hd : 1 <= d <= 52).
  { split; [unfold d; lia |].
    destruct (Z.le_gt_cases d 52) as [H | H]; [exact H |].
    assert (2 ^ 52 <= 2 ^ (d - 1)) by (apply Z.pow_le_mono_r; lia). lia. }
  set (h := (d + 1) / 2).
  assert (Hh : 1 <= h <= 26 /\ (d = 2 * h \/ d = 2 * h - 1)).
  { unfold h. pose proof (Z.div_mod (d + 1) 2 ltac:(lia)).
    pose proof (Z.mod_pos_bound (d + 1) 2 ltac:(lia)). lia. }
  destruct Hh as [Hh Hdh].
  assert (Hpow : Z.pos m * 2 ^ (106 - 2 * h)
                 = Z.pos m * 2 ^ (52 - 2 * h) * 2 ^ 54).
  { rewrite <- Z.mul_assoc, <- Z.pow_add_r by lia. do 2 f_equal. lia. }
  assert (Hm'lo : 2 ^ 104 <= Z.pos m * 2 ^ (106 - 2 * h)).
  { replace 104 with ((2 * h - 2) + (106 - 2 * h)) by lia.
    rewrite Z.pow_add_r by lia.
    apply Z.mul_le_mono_nonneg_r; [apply Z.pow_nonneg; lia |].
    assert (2 ^ (2 * h - 2) <= 2 ^ (d - 1)) by (apply Z.pow_le_mono_r; lia).
    lia. }
  assert (Hm'hi : Z.pos m * 2 ^ (106 - 2 * h) < 2 ^ 106).
  { replace 106 with (2 * h + (106 - 2 * h)) at 2 by lia.
    rewrite Z.pow_add_r by lia.
    apply Z.mul_lt_mono_pos_r; [apply Z.pow_pos_nonneg; lia |].
    assert (2 ^ d <= 2 ^ (2 * h)) by (apply Z.pow_le_mono_r; lia).
    lia. }
  cbn [SFsqrt]. unfold SFsqrt_core_binary. cbn [Zdigits2]. rewrite HdM.
  assert (He' : Z.min (fexp 53 1024 (Z.div2 (53 + (d - 53) + 1)))
                  (Z.div2 (d - 53)) = h - 53).
  { rewrite !Z.div2_div. replace (53 + (d - 53) + 1) with (d + 1) by lia.
    fold h. unfold fexp, emin.
    pose proof (Z.div_mod (d - 53) 2 ltac:(lia)).
    pose proof (Z.mod_pos_bound (d - 53) 2 ltac:(lia)). lia. }
  rewrite He'.
  assert (Hs : d - 53 - 2 * (h - 53) = 52 \/ d - 53 - 2 * (h - 53) = 53) by lia.
  assert (Hm' : match d - 53 - 2 * (h - 53) with
                | 0 => Z.pos M
                | Z.pos _ => Z.shiftl (Z.pos M) (d - 53 - 2 * (h - 53))
                | Z.neg _ => 0
                end = Z.pos m * 2 ^ (106 - 2 * h)).
  { destruct (d - 53 - 2 * (h - 53)) as [| sp | sp] eqn:Hsp; try lia.
    rewrite Z.shiftl_mul_pow2, HM, <- Z.mul_assoc, <- Z.pow_add_r by lia.
    do 2 f_equal. lia. }
  rewrite Hm'.
  set (m' := Z.pos m * 2 ^ (106 - 2 * h)) in *.
  pose proof (Z.sqrtrem_spec m' ltac:(lia)) as Hspec.
  destruct (Z.sqrtrem m') as [q r]. destruct Hspec as [Hqr Hr].
  clear Hm' He' Hs.
  set (t := Z.pos m * 2 ^ (52 - 2 * h)) in *.
  change (2 ^ 54) with 18014398509481984 in Hpow.
  change (2 ^ 104) with 20282409603651670423947251286016 in Hm'lo.
  change (2 ^ 106) with 81129638414606681695789005144064 in Hm'hi.
  assert (Hqhi : q + 1 < 9007199254740992).
  { destruct (Z.lt_ge_cases (q + 1) 9007199254740992) as [H | H]; [exact H |].
    assert (9007199254740991 * 9007199254740991 <= q * q)
      by (apply Z.mul_le_mono_nonneg; lia).
    lia. }
  assert (Hqlo : 4503599627370496 <= q).
  { destruct (Z.le_gt_cases 4503599627370496 q) as [H | H]; [exact H |].
    assert ((q + 1) * (q + 1) <= 4503599627370496 * 4503599627370496)
      by (apply Z.mul_le_mono_nonneg; lia).
    lia. }
  destruct q as [| q | q]; try lia.
  destruct (binary_round_aux_53 q (h - 53)
              (if r =? 0 then loc_Exact
               else loc_Inexact (if r <=? Z.pos q then Lt else Gt)))
    as (q' & -> & Hq'); [lia | lia | lia |].
  assert (Hq'hi : Z.pos q' < 2 ^ 53).
  { rewrite Hq', H53.
    destruct (r =? 0); [cbn [round_nearest_even]; lia |].
    destruct (r <=? Z.pos q); cbn [round_nearest_even]; lia. }
  exists q', h.
  split; [reflexivity | split; [exact Hh | split; [| split; [exact Hq'hi |]]]].
  - split.
    + assert (2 ^ (2 * h - 2) <= 2 ^ (d - 1)) by (apply Z.pow_le_mono_r; lia).
      lia.
    + assert (2 ^ d <= 2 ^ (2 * h)) by (apply Z.pow_le_mono_r; lia). lia.
  - fold m'. rewrite Hq'.
    destruct (Z.eqb_spec r 0) as [Hr0 | Hr0]; cbn [round_nearest_even].
    + lia.
    + destruct (Z.leb_spec r (Z.pos q)); cbn [round_nearest_even]; lia.
Qed.

Lemma SFsqrt_int64_lt (n1 n2 : Z) :
  1 <= n1 -> n1 < n2 -> n2 < 2 ^ 52 ->
  SFcompare (SFsqrt 53 1024 (float_of_int64 n1))
    (SFsqrt 53 1024 (float_of_int64 n2)) = Some Lt /\
  SFcompare (SFsqrt 53 1024 (float_of_int64 n2))
    (SFsqrt 53 1024 (float_of_int64 n1)) = Some Gt.
Proof.
  intros H1 Hlt H2.
  destruct (SFsqrt_int64_spec n1) as (q1 & h1 & -> & Hh1 & Hn1 & Hq1 & Hi1);
    [lia |].
  destruct (SFsqrt_int64_spec n2) as (q2 & h2 & -> & Hh2 & Hn2 & Hq2 & Hi2);
    [lia |].
  cbn [SFcompare].
  assert (Hh : h1 <= h2).
  { destruct (Z.le_gt_cases h1 h2) as [H | H]; [exact H |].
    assert (2 ^ (2 * h2) <= 2 ^ (2 * h1 - 2)) by (apply Z.pow_le_mono_r; lia).
    lia. }
  destruct (Z.eq_dec h1 h2) as [-> | Hne].
  - rewrite Z.compare_refl.
    change (Pos.compare_cont Eq q1 q2) with (Z.pos q1 ?= Z.pos q2).
    change (Pos.compare_cont Eq q2 q1) with (Z.pos q2 ?= Z.pos q1).
    assert (Hq : Z.pos q1 < Z.pos q2).
    { destruct (Z.lt_ge_cases (Z.pos q1) (Z.pos q2)) as [H | H]; [exact H |].
      exfalso.
      assert (Hc : 2 ^ 54 <= 2 ^ (106 - 2 * h2))
        by (apply Z.pow_le_mono_r; lia).
      set (c := 2 ^ (106 - 2 * h2)) in *.
      change (2 ^ 54) with 18014398509481984 in Hc.
      change (2 ^ 53) with 9007199254740992 in Hq2.
      assert (Z.pos q2 * Z.pos q2 - Z.pos q2 <= Z.pos q1 * Z.pos q1 - Z.pos q1)
        by nia.
      assert (n1 * c + c <= n2 * c) by nia.
      lia. }
    split.
    + f_equal. apply Z.compare_lt_iff, Hq.
    + f_equal. apply Z.compare_gt_iff, Hq.
  - assert (Hlt' : h1 - 53 < h2 - 53) by lia.
    split; f_equal.
    + apply Z.compare_lt_iff in Hlt'. rewrite Hlt'. reflexivity.
    + apply Z.compare_gt_iff in Hlt'. rewrite Hlt'. reflexivity.
Qed.

Lemma SFcompare_finite_refl (s : bool) (m : positive) (e : Z) :
  SFcompare (S754_finite s m e) (S754_finite s m e) = Some Eq.
Proof.
  cbn [SFcompare]. rewrite Z.compare_refl.
  change (Pos.compare_cont Eq m m) with (m ?= m)%positive.
  rewrite Pos.compare_refl. destruct s; reflexivity.
Qed.

(** On the integers below [2^52] the rounded square root is strictly
    increasing: two such integers compare as the floats of their square
    roots. *)
Lemma distance_float_compare (d1 d2 : distance) :
  0 <= radicand d1 < 2 ^ 52 -> 0 <= radicand d2 < 2 ^ 52 ->
  SFcompare (distance_float d1) (distance_float d2)
  = Some (radicand d1 ?= radicand d2).
Proof.
  destruct d1 as [n1], d2 as [n2]. unfold distance_float. cbn [radicand].
  intros H1 H2.
  destruct (Z.eq_dec n1 0) as [-> | Hnz1]; [| destruct (Z.eq_dec n2 0) as [-> | Hnz2]].
  - destruct (Z.eq_dec n2 0) as [-> | Hnz2]; [reflexivity |].
    destruct (SFsqrt_int64_spec n2) as (q2 & h2 & -> & _); [lia |].
    destruct n2; try lia. reflexivity.
  - destruct (SFsqrt_int64_spec n1) as (q1 & h1 & -> & _); [lia |].
    destruct n1; try lia. reflexivity.
  - destruct (Z.compare_spec n1 n2) as [-> | Hlt | Hgt].
    + destruct (SFsqrt_int64_spec n2) as (q2 & h2 & -> & _); [lia |].
      apply SFcompare_finite_refl.
    + apply SFsqrt_int64_lt; lia.
    + apply SFsqrt_int64_lt; lia.
Qed.

Lemma distance_float_eqb (d1 d2 : distance) :
  0 <= radicand d1 < 2 ^ 52 -> 0 <= radicand d2 < 2 ^ 52 ->
  SFeqb (distance_float d1) (distance_float d2) = distance_eqb d1 d2.
Proof.
  intros H1 H2. unfold SFeqb, distance_eqb.
  rewrite distance_float_compare, Z.eqb_compare by assumption.
  destruct (radicand d1 ?= radicand d2); reflexivity.
Qed.

Lemma distance_float_leb (d1 d2 : distance) :
  0 <= radicand d1 < 2 ^ 52 -> 0 <= radicand d2 < 2 ^ 52 ->
  SFleb (distance_float d1) (distance_float d2) = distance_leb d1 d2.
Proof.
  intros H1 H2. unfold SFleb, distance_leb.
  rewrite distance_float_compare by assumption. unfold Z.leb.
  destruct (radicand d1 ?= radicand d2); reflexivity.
Qed.

(** ** [get_nearest_point] on pixel coordinates *)

Lemma asarray_float64_small (p : point) :
  small_point p -> asarray_float64 p = ret (to_float64 p).
Proof.
  intros [Hx Hy]. change (2 ^ 24) with 16777216 in *.
  assert (H53 : 2 ^ 53 = 9007199254740992) by reflexivity.
  unfold asarray_float64. rewrite !float_of_int_value by lia. reflexivity.
Qed.

Lemma asarray_float64_list_small (l : list point) :
  Forall small_point l -> asarray_float64_list l = ret (map to_float64 l).
Proof.
  induction 1 as [| p l Hp _ IH]; [reflexivity |].
  cbn [asarray_float64_list map]. rewrite (asarray_float64_small p Hp), IH.
  reflexivity.
Qed.

Lemma fold_float_min_small (q : point) (l : list point) (d : distance) :
  small_point q -> Forall small_point l -> 0 <= radicand d <= 2 ^ 51 ->
  fold_left
    (fun s p => float_min s (sqeuclidean_distance_double (to_float64 q) p))
    (map to_float64 l) (float_of_int64 (radicand d))
  = float_of_int64
      (radicand
         (fold_left (fun d p => distance_min d (exact_euclidean q p)) l d)) /\
  0 <= radicand
         (fold_left (fun d p => distance_min d (exact_euclidean q p)) l d)
    <= 2 ^ 51.
Proof.
  intros Hq Hl. revert d. induction Hl as [| p l Hp _ IH]; intros d Hd.
  - split; [reflexivity | exact Hd].
  - cbn [map fold_left].
    pose proof (small_point_radicand q p Hq Hp) as Hqp.
    assert (Hmin : float_min (float_of_int64 (radicand d))
                     (sqeuclidean_distance_double (to_float64 q) (to_float64 p))
                   = float_of_int64
                       (radicand (distance_min d (exact_euclidean q p)))).
    { rewrite (sqeuclidean_distance_small q p Hq Hp).
      change (2 ^ 51) with 2251799813685248 in *.
      rewrite float_min_int64
        by (change (2 ^ 53) with 9007199254740992; lia).
      unfold distance_min, distance_leb.
      destruct (radicand d <=? radicand (exact_euclidean q p)); reflexivity. }
    rewrite Hmin. apply IH.
    unfold distance_min. destruct (distance_leb d (exact_euclidean q p)); lia.
Qed.

Lemma in_enumerate_from_In {A : Type} (l : list A) (k i : nat) (a : A) :
  In (i, a) (enumerate_from k l) -> In a l.
Proof.
  intros Hin. apply in_enumerate_from in Hin as [_ Hnth].
  apply (nth_error_In _ _ Hnth).
Qed.

Lemma nearest_indices_small (q : point) (l : list point) (d : distance) :
  small_point q -> Forall small_point l -> 0 <= radicand d <= 2 ^ 51 ->
  nearest_indices q l (distance_float d) = exact_nearest_indices q l d.
Proof.
  intros Hq Hl Hd. unfold nearest_indices, exact_nearest_indices. f_equal.
  apply filter_ext_in. intros [i p] Hin. cbn [snd].
  apply in_enumerate_from_In in Hin.
  assert (Hp : small_point p) by (rewrite Forall_forall in Hl; apply Hl, Hin).
  pose proof (small_point_radicand q p Hq Hp) as Hqp.
  rewrite (euclidean_small q p Hq Hp).
  change (2 ^ 51) with 2251799813685248 in *.
  apply distance_float_eqb; change (2 ^ 52) with 4503599627370496; lia.
Qed.

(** On pixel coordinates [get_nearest_point] selects what the selection with
    exact distances selects, and returns the float nearest to the exact
    distance. *)
Lemma get_nearest_point_small (check_point : point) (references : list point) :
  small_point check_point -> Forall small_point references ->
  get_nearest_point check_point references
  = r <- exact_nearest_point check_point references ;;
    ret (fst r, distance_float (snd r)).
Proof.
  intros Hq Hl. destruct references as [| ref refs]; [reflexivity |].
  pose proof (Forall_inv Hl) as Href. pose proof (Forall_inv_tail Hl) as Hrefs.
  unfold get_nearest_point, exact_nearest_point, query, exact_query.
  cbn [KDTree exact_candidates].
  rewrite (asarray_float64_small ref Href), (asarray_float64_list_small refs Hrefs).
  cbn [bind ret tree_head tree_tail first_candidate other_candidates].
  rewrite (asarray_float64_small check_point Hq). cbn [bind ret].
  rewrite (sqeuclidean_distance_small check_point ref Hq Href).
  destruct (fold_float_min_small check_point refs
              (exact_euclidean check_point ref) Hq Hrefs
              (small_point_radicand check_point ref Hq Href)) as [-> Hmin].
  set (d := fold_left _ refs _) in *.
  change (SFsqrt 53 1024 (float_of_int64 (radicand d))) with (distance_float d).
  rewrite (nearest_indices_small check_point (ref :: refs) d Hq Hl Hmin).
  destruct (py_min _) as [e | i]; reflexivity.
Qed.

Lemma float_of_int_OverflowError (a : Z) (e : exception) :
  float_of_int a = raise e -> e = OverflowError.
Proof.
  unfold float_of_int.
  destruct (binary_normalize 53 1024 a 0 false); intros [= <-]; reflexivity.
Qed.

Lemma asarray_float64_OverflowError (p : point) (e : exception) :
  asarray_float64 p = raise e -> e = OverflowError.
Proof.
  unfold asarray_float64.
  destruct (float_of_int (fst p)) as [e1 | x] eqn:Hx; cbn [bind].
  - intros [= <-]. apply (float_of_int_OverflowError _ _ Hx).
  - destruct (float_of_int (snd p)) as [e2 | y] eqn:Hy; cbn [bind].
    + intros [= <-]. apply (float_of_int_OverflowError _ _ Hy).
    + discriminate.
Qed.

Lemma asarray_float64_list_OverflowError (l : list point) (e : exception) :
  asarray_float64_list l = raise e -> e = OverflowError.
Proof.
  induction l as [| p l IH]; cbn [asarray_float64_list]; [discriminate |].
  destruct (asarray_float64 p) as [e1 | fp] eqn:Hp; cbn [bind].
  - intros [= <-]. apply (asarray_float64_OverflowError _ _ Hp).
  - destruct (asarray_float64_list l) as [e2 | fl]; cbn [bind].
    + intros [= <-]. apply IH. reflexivity.
    + discriminate.
Qed.

(** The exceptions of [get_nearest_point]: the [ValueError] of the k-d tree
    constructor or of [min], and the [OverflowError] of a conversion to
    [float64]. *)
Lemma get_nearest_point_exceptions (check_point : point)
    (references : list point) (e : exception) :
  get_nearest_point check_point references = raise e ->
  e = ValueError \/ e = OverflowError.
Proof.
  unfold get_nearest_point, KDTree, query.
  destruct references as [| ref refs]; cbn [bind]; [intros [= <-]; auto |].
  destruct (asarray_float64 ref) as [e1 | fp] eqn:Hp; cbn [bind].
  { intros [= <-]. right. apply (asarray_float64_OverflowError _ _ Hp). }
  destruct (asarray_float64_list refs) as [e2 | fl] eqn:Hl; cbn [bind].
  { intros [= <-]. right. apply (asarray_float64_list_OverflowError _ _ Hl). }
  destruct (asarray_float64 check_point) as [e3 | fx] eqn:Hx; cbn [bind].
  { intros [= <-]. right. apply (asarray_float64_OverflowError _ _ Hx). }
  cbn [bind ret].
  match goal with
  | |- context [py_min ?ns] => destruct ns as [| i l]; cbn [py_min bind]
  end.
  - intros [= <-]. auto.
  - discriminate.
Qed.

(** No call of [get_nearest_point] raises [InvalidInput]. *)
Lemma get_nearest_point_never_InvalidInput (check_point : point)
    (references : list point) :
  get_nearest_point check_point references <> raise InvalidInput.
Proof.
  intros H. destruct (get_nearest_point_exceptions _ _ _ H); discriminate.
Qed.

(** C5, as the code has it. On the empty list of candidates
    [get_nearest_point] raises the [ValueError] of the k-d tree constructor
    and returns no value. *)
Theorem get_nearest_point_empty_raises_ValueError (check_point : point) :
  get_nearest_point check_point [] = raise ValueError /\
  forall v, get_nearest_point check_point [] <> ret v.
Proof. split; [reflexivity | intros v; discriminate]. Qed.

(** C5, as stated, fails: on the empty list the exception raised is not
    [InvalidInput]. *)
Lemma get_nearest_point_empty_not_InvalidInput :
  get_nearest_point (0, 0) [] <> raise InvalidInput.
Proof. discriminate. Qed.

Lemma get_nearest_point_small_cons (check_point ref : point)
    (refs : list point) :
  small_point check_point -> Forall small_point (ref :: refs) ->
  exists (i : nat) (r : point),
    get_nearest_point check_point (ref :: refs)
      = ret (i, euclidean check_point r) /\
    exact_nearest_point check_point (ref :: refs)
      = ret (i, exact_euclidean check_point r) /\
    euclidean check_point r = distance_float (exact_euclidean check_point r) /\
    nth_error (ref :: refs) i = Some r /\
    small_point r /\
    (forall p, In p (ref :: refs) ->
       radicand (exact_euclidean check_point r)
         <= radicand (exact_euclidean check_point p)) /\
    (forall j, In j (exact_nearest_indices check_point (ref :: refs)
                       (exact_euclidean check_point r)) -> (i <= j)%nat).
Proof.
  intros Hq Hl.
  destruct (exact_nearest_point_cons check_point ref refs)
    as (i & r & Hret & Hr & Hmin & Hleast).
  assert (Hsmall : small_point r).
  { rewrite Forall_forall in Hl. apply Hl, (nth_error_In _ _ Hr). }
  exists i, r. rewrite (get_nearest_point_small _ _ Hq Hl), Hret.
  cbn [bind ret fst snd]. rewrite (euclidean_small _ _ Hq Hsmall).
  split; [reflexivity | split; [reflexivity | split; [reflexivity |]]].
  split; [exact Hr | split; [exact Hsmall | split; [exact Hmin | exact Hleast]]].
Qed.

(** C2. On a non-empty list of candidates and a query point, all of pixel
    coordinates (integers of magnitude at most [2^24]), [get_nearest_point]
    returns an index [i] and a distance such that: the distance is the
    binary64 value nearest to the exact distance between the query point
    and the candidate at [i]; no candidate is nearer; and every candidate at
    exactly that distance has an index of at least [i]. *)
Theorem get_nearest_point_lowest_index (check_point ref : point)
    (refs : list point) :
  small_point check_point -> Forall small_point (ref :: refs) ->
  exists (i : nat) (r : point),
    get_nearest_point check_point (ref :: refs)
      = ret (i, distance_float (exact_euclidean check_point r)) /\
    nth_error (ref :: refs) i = Some r /\
    forall (j : nat) (r' : point),
      nth_error (ref :: refs) j = Some r' ->
      distance_leb (exact_euclidean check_point r)
        (exact_euclidean check_point r') = true
      /\ (exact_euclidean check_point r' = exact_euclidean check_point r ->
          (i <= j)%nat).
Proof.
  intros Hq Hl.
  destruct (get_nearest_point_small_cons check_point ref refs Hq Hl)
    as (i & r & Hret & _ & Heu & Hr & _ & Hmin & Hleast).
  exists i, r. rewrite <- Heu. split; [exact Hret | split; [exact Hr |]].
  intros j r' Hj. split.
  - apply distance_leb_le, Hmin. apply (nth_error_In _ j Hj).
  - intros Heq. apply Hleast, in_exact_nearest_indices.
    exists r'. split; [exact Hj | exact Heq].
Qed.

Lemma small_point_intro (x y : Z) :
  Z.abs x <= 16777216 -> Z.abs y <= 16777216 -> small_point (x, y).
Proof. intros Hx Hy. split; [exact Hx | exact Hy]. Qed.

Lemma get_nearest_point_lowest_index_witness :
  exists (i : nat) (r : point),
    get_nearest_point (0, 0) [(3, 4); (1, 1); (-1, 1)]
      = ret (i, distance_float (exact_euclidean (0, 0) r)) /\
    nth_error [(3, 4); (1, 1); (-1, 1)] i = Some r /\
    forall (j : nat) (r' : point),
      nth_error [(3, 4); (1, 1); (-1, 1)] j = Some r' ->
      distance_leb (exact_euclidean (0, 0) r) (exact_euclidean (0, 0) r') = true
      /\ (exact_euclidean (0, 0) r' = exact_euclidean (0, 0) r -> (i <= j)%nat).
Proof.
  apply (get_nearest_point_lowest_index (0, 0) (3, 4) [(1, 1); (-1, 1)]).
  - apply small_point_intro; cbn; lia.
  - repeat constructor; cbn; lia.
Defined.

(** C2, as stated, fails beyond pixel coordinates. The candidate
    [(100000000, 0)] is nearer to the origin than [(100000000, 1)], by the
    squared distances [10^16 < 10^16 + 1], but both distances round to the
    float [100000000.0] and the index returned is that of the farther
    candidate. *)
Lemma get_nearest_point_not_nearest :
  get_nearest_point (0, 0) [(100000000, 1); (100000000, 0)]
    = ret (0%nat, S754_finite false 6710886400000000 (-26)) /\
  distance_leb (exact_euclidean (0, 0) (100000000, 1))
    (exact_euclidean (0, 0) (100000000, 0)) = false.
Proof. split; vm_compute; reflexivity. Qed.

(** On one candidate whose squared distance is beyond [2^53], the k-d tree
    and [euclidean] round differently, no index is selected and [min] raises
    [ValueError]. *)
Example get_nearest_point_rounding_mismatch :
  get_nearest_point (0, 0) [(32350647, 94982675)] = raise ValueError.
Proof. vm_compute. reflexivity. Qed.

(** A coordinate beyond the largest float raises [OverflowError]. *)
Example get_nearest_point_overflow :
  get_nearest_point (0, 0) [(10 ^ 400, 0)] = raise OverflowError.
Proof. vm_compute. reflexivity. Qed.

(** ** Further properties of [get_nearest_point] *)

(** X9. On pixel coordinates [get_nearest_point] raises exactly on the empty
    list of candidates, and what it raises there is [ValueError]; on every
    other list it returns a value. *)
Theorem get_nearest_point_raises_iff_empty (check_point : point)
    (references : list point) (e : exception) :
  small_point check_point -> Forall small_point references ->
  get_nearest_point check_point references = raise e <->
  references = [] /\ e = ValueError.
Proof.
  intros Hq Hl. split.
  - destruct references as [| ref refs].
    + intros [= <-]. auto.
    + destruct (get_nearest_point_small_cons check_point ref refs Hq Hl)
        as (i & r & Heq & _).
      rewrite Heq. discriminate.
  - intros [-> ->]. reflexivity.
Qed.

Lemma get_nearest_point_raises_iff_empty_witness :
  get_nearest_point (0, 0) [(3, 4)] = raise ValueError <->
  [(3, 4)] = [] /\ ValueError = ValueError.
Proof.
  apply (get_nearest_point_raises_iff_empty (0, 0) [(3, 4)] ValueError).
  - apply small_point_intro; cbn; lia.
  - repeat constructor; cbn; lia.
Defined.

(** X10. On pixel coordinates, when the query point is itself among the
    candidates, [get_nearest_point] returns the index of its first
    occurrence and the distance [0.0]. *)
Theorem get_nearest_point_of_member (check_point : point)
    (references : list point) (i : nat) :
  small_point check_point -> Forall small_point references ->
  nth_error references i = Some check_point ->
  (forall j, (j < i)%nat -> nth_error references j <> Some check_point) ->
  get_nearest_point check_point references = ret (i, S754_zero false).
Proof.
  intros Hq Hl Hi Hfirst.
  rewrite (get_nearest_point_small _ _ Hq Hl).
  rewrite (exact_nearest_point_of_member _ _ _ Hi Hfirst). reflexivity.
Qed.

Lemma get_nearest_point_of_member_witness :
  get_nearest_point (5, 5) [(0, 0); (5, 5); (9, 9); (5, 5)]
    = ret (1%nat, S754_zero false).
Proof.
  apply (get_nearest_point_of_member (5, 5) [(0, 0); (5, 5); (9, 9); (5, 5)] 1).
  - apply small_point_intro; cbn; lia.
  - repeat constructor; cbn; lia.
  - reflexivity.
  - intros j Hj. assert (j = 0%nat) as -> by lia. cbn. discriminate.
Defined.

(** X11. Within pixel coordinates [get_nearest_point] does not depend on the
    origin: shifting the query point and every candidate by the same offset
    gives the same index and the same distance, when the shifted points are
    pixel coordinates too. *)
Theorem get_nearest_point_translation (dx dy : Z) (check_point : point)
    (references : list point) :
  small_point check_point -> Forall small_point references ->
  small_point (fst check_point + dx, snd check_point + dy) ->
  Forall small_point (map (fun p => (fst p + dx, snd p + dy)) references) ->
  get_nearest_point (fst check_point + dx, snd check_point + dy)
    (map (fun p => (fst p + dx, snd p + dy)) references)
  = get_nearest_point check_point references.
Proof.
  intros Hq Hl Hq' Hl'.
  rewrite (get_nearest_point_small _ _ Hq Hl).
  rewrite (get_nearest_point_small _ _ Hq' Hl').
  rewrite exact_nearest_point_translation. reflexivity.
Qed.

Lemma get_nearest_point_translation_witness :
  get_nearest_point (fst (0, 0) + 100, snd (0, 0) + -7)
    (map (fun p => (fst p + 100, snd p + -7)) [(3, 4); (1, 1); (-1, 1)])
  = get_nearest_point (0, 0) [(3, 4); (1, 1); (-1, 1)].
Proof.
  apply (get_nearest_point_translation 100 (-7) (0, 0)
           [(3, 4); (1, 1); (-1, 1)]).
  - apply small_point_intro; cbn; lia.
  - repeat constructor; cbn; lia.
  - apply small_point_intro; cbn; lia.
  - repeat constructor; cbn; lia.
Defined.

(** X12. On pixel coordinates, appending one candidate [p] to a list on
    which [get_nearest_point] returned [(i, d)]: when [p] is not strictly
    nearer than [d] the result is still [(i, d)]; when it is, the result is
    the index of [p] with its distance. *)
Theorem get_nearest_point_app (check_point p : point)
    (references : list point) (i : nat) (d : spec_float) :
  small_point check_point -> Forall small_point references ->
  small_point p ->
  get_nearest_point check_point references = ret (i, d) ->
  get_nearest_point check_point (references ++ [p])
  = if SFleb d (euclidean check_point p) then ret (i, d)
    else ret (List.length references, euclidean check_point p).
Proof.
  intros Hq Hl Hp Hret.
  destruct references as [| ref refs]; [discriminate Hret |].
  destruct (get_nearest_point_small_cons check_point ref refs Hq Hl)
    as (i' & r & Hret' & Hexact & Heu & _ & Hr & _).
  rewrite Hret' in Hret. injection Hret as -> <-.
  assert (Hl' : Forall small_point ((ref :: refs) ++ [p]))
    by (apply Forall_app; split; [exact Hl | constructor; [exact Hp | constructor]]).
  rewrite (get_nearest_point_small _ _ Hq Hl').
  rewrite (exact_nearest_point_app _ p _ _ _ Hexact).
  pose proof (small_point_radicand check_point r Hq Hr) as Hbr.
  pose proof (small_point_radicand check_point p Hq Hp) as Hbp.
  change (2 ^ 51) with 2251799813685248 in *.
  rewrite Heu, (euclidean_small _ _ Hq Hp).
  rewrite distance_float_leb
    by (change (2 ^ 52) with 4503599627370496; lia).
  destruct (distance_leb _ _); reflexivity.
Qed.

Lemma get_nearest_point_app_witness :
  get_nearest_point (0, 0) ([(3, 4); (1, 1)] ++ [(-1, 1)])
  = if SFleb (S754_finite false 6369051672525773 (-52))
         (euclidean (0, 0) (-1, 1))
    then ret (1%nat, S754_finite false 6369051672525773 (-52))
    else ret (List.length [(3, 4); (1, 1)], euclidean (0, 0) (-1, 1)).
Proof.
  apply (get_nearest_point_app (0, 0) (-1, 1) [(3, 4); (1, 1)] 1
           (S754_finite false 6369051672525773 (-52))).
  - apply small_point_intro; cbn; lia.
  - repeat constructor; cbn; lia.
  - apply small_point_intro; cbn; lia.
  - vm_compute. reflexivity.
Defined.

End ProcessingSupportFacts.
